(** * hub-app-server: the download counters

    A shallow embedding of the Express/MongoDB server and the proofs of its
    counter-consistency properties.  The embedded code is the version of the
    server with per-application counters: [run()] awaits [initializeCounter]
    and then registers the routes
      GET  /totaldownloads          GET  /totaldownloads/:appId
      POST /totaldownloads/:appId   POST /totaldownloads          GET /
    together with the serverless variant, whose handlers await
    [connectToDatabase] first and share the module variable [isConnected]
    with it ([serverless_app]), and GET /totaldownloads of the first version
    of the server, which reads the global counter.

    The server owns no state of its own: every handler is a short sequence
    of awaited driver calls on two collections of the database [hub-app-db],
      - [downloadInfo]  : the event log, one document per tracked download;
      - [totalDownload] : the counters, documents [{ _id, count }], where the
                          document with [_id = "counter"] is the global one.
    A handler is embedded as a program ([prog]) whose only effects are those
    driver calls, and the database as the pair of the two collections.

    What is assumed of MongoDB and its driver, and written into [perform]:
      - a call on one document is atomic, so a call is one step;
      - [_id] is unique in a collection: [insertOne] is refused (E11000) when
        the [_id] exists;
      - [findOneAndUpdate] resolves to an object whose [value] is the matched
        document, before or after the update as [returnDocument] says, and
        null when nothing was matched and, for the document before, when it
        was upserted (the driver the code is written for: it reads
        [result.value.count]);
      - [$inc] on numbers does not overflow: counts are integers of [Z].
    A call may also fail without reaching the database; it then changes
    nothing.

    The response of GET /totaldownloads is built by assignments to a plain
    object, modelled as a finite map; the assignment to the key "__proto__"
    stores nothing there ([set_count]).

    The same programs are run alone ([exec]) or interleaved with the programs
    of other requests and other instances ([run_pool]). *)

From stdpp Require Import base option list gmap strings fin_maps.
From Stdlib Require Import ZArith Lia.

Local Open Scope Z_scope.

(** ** Documents and collections *)

(** A document of [downloadInfo], as the two POST handlers build it.  The
    route without [:appId] stores no [appId] field. *)
Record DownloadRecord := {
  appId : option string;
  userAgent : string;
  ip : option string;
  createdAt : Z
}.

(** A document of [totalDownload]. *)
Record CounterDoc := {
  _id : string;
  count : Z
}.

(** The database.  [_id] is the primary key of a collection, so the counters
    are a finite map from [_id] to [count]; the event log is only appended to
    and counted, so it is the list of its documents in insertion order. *)
Record db := {
  downloadInfo : list DownloadRecord;
  totalDownload : gmap string Z
}.

(** The reserved [_id] of the global counter. *)
Definition counter : string := "counter".

Definition doc_of (id : string) (c : Z) : CounterDoc := {| _id := id; count := c |}.

(** ** Driver calls *)

Inductive error :=
| StorageUnavailable          (* the call did not reach the database *)
| DuplicateKey (id : string)  (* E11000: insertOne on an _id that exists *)
| TypeError.                  (* a property read on null *)

(** The calls the service makes, indexed by the type of what the awaited
    promise resolves to.  [ClientConnect] is [client.connect()], the others
    are calls on the collection their name starts with.  [TotalFindOneAndUpdate id after upsert] is
    [findOneAndUpdate({_id: id}, {$inc: {count: 1}}, {returnDocument, upsert})]
    and resolves to the [value] field of the driver's result. *)
Inductive storage_op : Type → Type :=
| ClientConnect : storage_op unit
| InfoInsertOne (r : DownloadRecord) : storage_op unit
| InfoCountDocuments : storage_op Z
| TotalFindOne (id : string) : storage_op (option CounterDoc)
| TotalInsertOne (d : CounterDoc) : storage_op unit
| TotalFindOneAndUpdate (id : string) (returnAfter upsert : bool) :
    storage_op (option CounterDoc)
| TotalFindNe (id : string) : storage_op (list CounterDoc).

(** [$inc: {count: 1}] on the document [id]. *)
Definition findOneAndUpdate (id : string) (returnAfter upsert : bool)
    (m : gmap string Z) : option CounterDoc * gmap string Z :=
  match m !! id with
  | Some c =>
      (Some (doc_of id (if returnAfter then c + 1 else c)), <[id := c + 1]> m)
  | None =>
      if upsert
      then ((if returnAfter then Some (doc_of id 1) else None), <[id := 1]> m)
      else (None, m)
  end.

(** [find({_id: {$ne: id}}).toArray()]. *)
Definition find_ne (id : string) (m : gmap string Z) : list CounterDoc :=
  (λ kv, doc_of kv.1 kv.2) <$> map_to_list (filter (λ kv, kv.1 ≠ id) m).

(** What a call that reaches the database does, and what it resolves to. *)
Definition perform {X} (op : storage_op X) (s : db) : (X + error) * db :=
  match op in storage_op X return (X + error) * db with
  | ClientConnect => (inl (), s)
  | InfoInsertOne r =>
      (inl (), {| downloadInfo := downloadInfo s ++ [r];
                  totalDownload := totalDownload s |})
  | InfoCountDocuments => (inl (Z.of_nat (length (downloadInfo s))), s)
  | TotalFindOne id => (inl (doc_of id <$> totalDownload s !! id), s)
  | TotalInsertOne d =>
      match totalDownload s !! _id d with
      | Some _ => (inr (DuplicateKey (_id d)), s)
      | None =>
          (inl (), {| downloadInfo := downloadInfo s;
                      totalDownload := <[_id d := count d]> (totalDownload s) |})
      end
  | TotalFindOneAndUpdate id after upsert =>
      let vm := findOneAndUpdate id after upsert (totalDownload s) in
      (inl vm.1, {| downloadInfo := downloadInfo s; totalDownload := vm.2 |})
  | TotalFindNe id => (inl (find_ne id (totalDownload s)), s)
  end.

(** A call either fails to reach the database, and then changes nothing, or
    is performed. *)
Definition call {X} (op : storage_op X) (fault : bool) (s : db) : (X + error) * db :=
  if fault then (inr StorageUnavailable, s) else perform op s.

(** ** Handler programs *)

(** An async function body: it returns, throws, or awaits a driver call and
    goes on with what the promise settled to. *)
Inductive prog (A : Type) : Type :=
| Ret (a : A)
| Throw (e : error)
| Await {X : Type} (op : storage_op X) (k : X + error → prog A).

Arguments Ret {A} a.
Arguments Throw {A} e.
Arguments Await {A X} op k.

Fixpoint bind {A B} (p : prog A) (f : A → prog B) : prog B :=
  match p with
  | Ret a => f a
  | Throw e => Throw e
  | Await op k => Await op (λ r, bind (k r) f)
  end.

(** [try { p } catch (error) { h error }] *)
Fixpoint try_catch {A} (p : prog A) (h : error → prog A) : prog A :=
  match p with
  | Ret a => Ret a
  | Throw e => h e
  | Await op k => Await op (λ r, try_catch (k r) h)
  end.

(** [await op]: a rejected promise throws at the await. *)
Definition await {X} (op : storage_op X) : prog X :=
  Await op (λ r, match r with inl x => Ret x | inr e => Throw e end).

Notation "'let*' x := p 'in' q" := (bind p (λ x, q))
  (at level 10, x binder, p at level 100, q at level 200, only parsing).
Notation "p ;;; q" := (bind p (λ _, q))
  (at level 100, q at level 200, right associativity, only parsing).

(** ** Requests and responses *)

Record Request := {
  params_appId : string;             (* req.params.appId *)
  body_userAgent : option string;    (* req.body.userAgent *)
  req_ip : option string;            (* req.ip *)
  remoteAddress : option string;     (* req.connection.remoteAddress *)
  date_now : Z                       (* what new Date() gives *)
}.

Inductive json :=
| JCounts (downloadCounts : gmap string Z)
| JCount (totalDownloadCount : Z)
| JTracked (success : bool) (totalDownloadCount : Z) (message : string)
| JError (error : string)
| JMessage (message : string).

Record Response := {
  status : nat;
  body : json
}.

(** [res.json(b)] and [res.status(500).json(b)]. *)
Definition res_json (b : json) : Response := {| status := 200; body := b |}.
Definition res_status_json (st : nat) (b : json) : Response := {| status := st; body := b |}.

(** [a || b] on an optional string: the empty string is falsy as well. *)
Definition or_string (a : option string) (b : option string) : option string :=
  match a with
  | Some s => if decide (s = "") then b else Some s
  | None => b
  end.

(** [n || 0] on a number. *)
Definition or_zero (n : Z) : Z := if decide (n = 0) then 0 else n.

(** ** The service *)

(** [initializeCounter], run once by [run()] before the routes exist. *)
Definition initializeCounter : prog unit :=
  let* counterDoc := await (TotalFindOne counter) in
  match counterDoc with
  | None =>
      let* existingCount := await InfoCountDocuments in
      await (TotalInsertOne {| _id := counter; count := existingCount |})
  | Some _ => Ret ()
  end.

(** [connectToDatabase] of the serverless variant of the file, which every
    handler there awaits first and the module also calls while loading.  The
    module-level flag [isConnected] is what the call finds on entry, and the
    function returns the value it leaves in it. *)
Definition connectToDatabase (isConnected : bool) : prog bool :=
  if isConnected then Ret true
  else
    try_catch
      (await ClientConnect;;;
       let* counterDoc := await (TotalFindOne counter) in
       match counterDoc with
       | None =>
           let* existingCount := await InfoCountDocuments in
           await (TotalInsertOne {| _id := counter; count := existingCount |})
       | Some _ => Ret ()
       end;;;
       Ret true)
      (λ error, Throw error).

(** The one key that an assignment does not add to a plain object: it names
    the prototype accessor, whose setter ignores a number. *)
Definition proto : string := "__proto__".

(** [downloadCounts[app._id] = app.count || 0], on the object [{}] *)
Definition set_count (downloadCounts : gmap string Z) (app : CounterDoc) : gmap string Z :=
  if decide (_id app = proto) then downloadCounts
  else <[_id app := or_zero (count app)]> downloadCounts.

(** GET /totaldownloads *)
Definition get_totaldownloads (req : Request) : prog Response :=
  try_catch
    (let* appCounters := await (TotalFindNe counter) in
     let downloadCounts := foldl set_count ∅ appCounters in
     Ret (res_json (JCounts downloadCounts)))
    (λ _, Ret (res_status_json 500 (JError "Failed to fetch download counts"))).

(** GET /totaldownloads/:appId *)
Definition get_totaldownloads_appId (req : Request) : prog Response :=
  try_catch
    (let appId := params_appId req in
     let* appCounter := await (TotalFindOne appId) in
     let totalDownloadCount :=
       match appCounter with Some d => count d | None => 0 end in
     Ret (res_json (JCount totalDownloadCount)))
    (λ _, Ret (res_status_json 500 (JError "Failed to fetch download count"))).

(** [result.value.count]: throws when [value] is null. *)
Definition value_count (value : option CounterDoc) : prog Z :=
  match value with
  | Some d => Ret (count d)
  | None => Throw TypeError
  end.

(** POST /totaldownloads/:appId *)
Definition post_totaldownloads_appId (req : Request) : prog Response :=
  try_catch
    (let appId := params_appId req in
     await (InfoInsertOne
              {| appId := Some appId;
                 userAgent := default "Unknown" (or_string (body_userAgent req) None);
                 ip := or_string (req_ip req) (remoteAddress req);
                 createdAt := date_now req |});;;
     let* result := await (TotalFindOneAndUpdate appId true true) in
     await (TotalFindOneAndUpdate counter false true);;;
     let* n := value_count result in
     Ret (res_json (JTracked true n "Download tracked successfully")))
    (λ _, Ret (res_status_json 500 (JError "Failed to track download"))).

(** POST /totaldownloads *)
Definition post_totaldownloads (req : Request) : prog Response :=
  try_catch
    (await (InfoInsertOne
              {| appId := None;
                 userAgent := default "Unknown" (or_string (body_userAgent req) None);
                 ip := or_string (req_ip req) (remoteAddress req);
                 createdAt := date_now req |});;;
     let* result := await (TotalFindOneAndUpdate counter true false) in
     let* n := value_count result in
     Ret (res_json (JTracked true n "Download tracked successfully")))
    (λ _, Ret (res_status_json 500 (JError "Failed to track download"))).

(** GET / *)
Definition get_root (req : Request) : prog Response :=
  Ret (res_json (JMessage "Hello hub softwares server")).

(** The routes [run()] registers, in its order. *)
Inductive route :=
| GET_totaldownloads
| GET_totaldownloads_appId
| POST_totaldownloads_appId
| POST_totaldownloads
| GET_root.

Definition app (r : route) : Request → prog Response :=
  match r with
  | GET_totaldownloads => get_totaldownloads
  | GET_totaldownloads_appId => get_totaldownloads_appId
  | POST_totaldownloads_appId => post_totaldownloads_appId
  | POST_totaldownloads => post_totaldownloads
  | GET_root => get_root
  end.

(** ** Running one program to its end *)

(** A driver call that was made, and whether its promise was fulfilled. *)
Inductive event :=
| Called {X : Type} (op : storage_op X) (fulfilled : bool).

Record outcome (A : Type) := {
  result : A + error;
  final : db;
  trace : list event
}.

Arguments result {A} o.
Arguments final {A} o.
Arguments trace {A} o.

Definition is_inl {A B} (x : A + B) : bool :=
  match x with inl _ => true | inr _ => false end.

(** [exec p faults s] runs [p] alone on the database [s].  The k-th call it
    makes does not reach the database when the k-th element of [faults] is
    [true]; calls beyond the end of the list all go through. *)
Fixpoint exec {A} (p : prog A) (faults : list bool) (s : db) : outcome A :=
  match p with
  | Ret a => {| result := inl a; final := s; trace := [] |}
  | Throw e => {| result := inr e; final := s; trace := [] |}
  | Await op k =>
      let rs := call op (hd false faults) s in
      let o := exec (k rs.1) (tl faults) rs.2 in
      {| result := result o; final := final o;
         trace := Called op (is_inl rs.1) :: trace o |}
  end.

(** ** Running many programs at once *)

(** Requests are served concurrently and several instances of the service
    share one database, but a program only ever touches the database through
    a driver call.  A run of a pool of programs is therefore an interleaving
    of their calls: at each step the scheduler picks a thread, and that
    thread's pending call is made, faulty or not. *)

Definition finished {A} (p : prog A) : bool :=
  match p with
  | Await _ _ => false
  | _ => true
  end.

Record pool (A : Type) := {
  store : db;
  threads : list (prog A);
  history : list (nat * event)
}.

Arguments store {A} _.
Arguments threads {A} _.
Arguments history {A} _.

Definition spawn {A} (s : db) (ts : list (prog A)) : pool A :=
  {| store := s; threads := ts; history := [] |}.

(** Thread [i] makes its pending call; a thread that is done, or that does
    not exist, leaves everything as it is. *)
Definition step_pool {A} (c : pool A) (i : nat) (fault : bool) : pool A :=
  match threads c !! i with
  | Some (Await op k) =>
      let rs := call op fault (store c) in
      {| store := rs.2;
         threads := <[i := k rs.1]> (threads c);
         history := history c ++ [(i, Called op (is_inl rs.1))] |}
  | _ => c
  end.

Definition run_pool {A} (c : pool A) (sched : list (nat * bool)) : pool A :=
  foldl (λ c ev, step_pool c ev.1 ev.2) c sched.

Definition all_finished {A} (c : pool A) : Prop :=
  Forall (λ p, finished p = true) (threads c).

Definition faultless (sched : list (nat * bool)) : Prop :=
  Forall (λ ev, ev.2 = false) sched.

(** The schedule that lets thread 0 make [n] calls, with the faults of
    [faults] in their order. *)
Fixpoint solo (n : nat) (faults : list bool) : list (nat * bool) :=
  match n with
  | O => []
  | S n => (0%nat, hd false faults) :: solo n (tl faults)
  end.

(** The program that is left of a thread that returned or threw. *)
Definition settled {A} (r : A + error) : prog A :=
  match r with
  | inl a => Ret a
  | inr e => Throw e
  end.

(** ** Reading the state *)

(** The value of a counter: zero while its document does not exist. *)
Definition count_of (id : string) (s : db) : Z :=
  default 0 (totalDownload s !! id).

Definition present (id : string) (s : db) : Prop :=
  is_Some (totalDownload s !! id).

(** The document a POST handler appends to the event log. *)
Definition download_record (a : option string) (req : Request) : DownloadRecord :=
  {| appId := a;
     userAgent := default "Unknown" (or_string (body_userAgent req) None);
     ip := or_string (req_ip req) (remoteAddress req);
     createdAt := date_now req |}.

(** A request succeeded when a response was sent with status 200. *)
Definition succeeded (o : outcome Response) : Prop :=
  match result o with
  | inl r => status r = 200%nat
  | inr _ => False
  end.

(** The [error] string of each route's catch block. *)
Definition failure_message (r : route) : string :=
  match r with
  | GET_totaldownloads => "Failed to fetch download counts"
  | GET_totaldownloads_appId => "Failed to fetch download count"
  | POST_totaldownloads_appId => "Failed to track download"
  | POST_totaldownloads => "Failed to track download"
  | GET_root => ""
  end.

(** ** Vocabulary of the properties *)

(** *** Increments *)

(** The number of [$inc] calls on the counter [id] that the handler of a
    request issues. *)
Definition increments (id : string) (r : route) (req : Request) : Z :=
  match r with
  | POST_totaldownloads_appId =>
      (if decide (params_appId req = id) then 1 else 0)
      + (if decide (id = counter) then 1 else 0)
  | POST_totaldownloads => if decide (id = counter) then 1 else 0
  | _ => 0
  end.

Definition total_increments (id : string) (reqs : list (route * Request)) : Z :=
  foldr (λ rq n, increments id rq.1 rq.2 + n) 0 reqs.

(** One thread per request. *)
Definition handlers (reqs : list (route * Request)) : list (prog Response) :=
  (λ rq, app rq.1 rq.2) <$> reqs.

Definition is_increment (id : string) (e : event) : bool :=
  match e with
  | Called op ok =>
      match op with
      | TotalFindOneAndUpdate id' _ _ => bool_decide (id' = id) && ok
      | _ => false
      end
  end.

Definition Zsum (l : list Z) : Z := foldr Z.add 0 l.

(** [owes G id p n]: whatever the other threads do to the database, as long
    as they keep [G], the fault-free calls that [p] still has to make add
    exactly [n] to the counter [id]. *)
Inductive owes {A} (G : db → Prop) (id : string) : prog A → Z → Prop :=
| owes_finished p : finished p = true → owes G id p 0
| owes_await {X} (op : storage_op X) k n :
    (∀ s, G s →
       owes G id (k (perform op s).1)
            (n - (count_of id (perform op s).2 - count_of id s))) →
    owes G id (Await op k) n.

(** [within n p]: [p] is done after at most [n] calls, whatever they give. *)
Inductive within {A} : nat → prog A → Prop :=
| within_finished n p : finished p = true → within n p
| within_await {X} n (op : storage_op X) k :
    (∀ r, within n (k r)) → within (S n) (Await op k).

(** The number of turns thread [i] gets in a schedule. *)
Definition turns (i : nat) (sched : list (nat * bool)) : nat :=
  length (filter (λ ev, ev.1 = i) sched).

(** *** Initialization attempts *)

Definition is_creation (e : event) : bool :=
  match e with
  | Called op ok =>
      match op with
      | TotalInsertOne _ => ok
      | _ => false
      end
  end.

(** The number of documents inserted in [totalDownload] during a run. *)
Definition creations (h : list (nat * event)) : nat :=
  length (filter (λ ie, is_creation ie.2 = true) h).

(** The calls of an initialization attempt started on [s0]: reads, and the
    insertion of the global counter seeded with the size of the event log. *)
Definition seeding_call (s0 : db) {X} (op : storage_op X) : Prop :=
  match op with
  | ClientConnect | InfoCountDocuments | TotalFindOne _ | TotalFindNe _ => True
  | TotalInsertOne d =>
      d = {| _id := counter; count := Z.of_nat (length (downloadInfo s0)) |}
  | InfoInsertOne _ | TotalFindOneAndUpdate _ _ _ => False
  end.

(** The states a race of initialization attempts started on [s0] goes
    through: the event log is that of [s0], and the counters are those of
    [s0], with the global one added if it was missing. *)
Definition seeded (s0 s : db) : Prop :=
  downloadInfo s = downloadInfo s0 ∧
  (totalDownload s = totalDownload s0 ∨
   (totalDownload s0 !! counter = None ∧
    totalDownload s =
      <[counter := Z.of_nat (length (downloadInfo s0))]> (totalDownload s0))).

(** What a race started on [s0] has done so far: nothing, or the one
    creation of the global counter that was missing. *)
Definition raced {A} (s0 : db) (c : pool A) : Prop :=
  downloadInfo (store c) = downloadInfo s0 ∧
  ((totalDownload (store c) = totalDownload s0 ∧ creations (history c) = 0%nat) ∨
   (totalDownload s0 !! counter = None ∧
    totalDownload (store c) =
      <[counter := Z.of_nat (length (downloadInfo s0))]> (totalDownload s0) ∧
    creations (history c) = 1%nat)).

(** [attempting s0 p]: [p] only makes seeding calls, and it is done, after a
    call that reached the database, only in a state where the global counter
    exists. *)
Inductive attempting {A} (s0 : db) : prog A → Prop :=
| attempting_finished p : finished p = true → attempting s0 p
| attempting_await {X} (op : storage_op X) k :
    seeding_call s0 op →
    (∀ fault s, seeded s0 s → attempting s0 (k (call op fault s).1)) →
    (∀ s, seeded s0 s → finished (k (perform op s).1) = true →
          present counter (perform op s).2) →
    attempting s0 (Await op k).

(** *** Failures *)

Definition failed_call (e : event) : bool :=
  match e with Called _ ok => negb ok end.

(** Some driver call of the run was rejected. *)
Definition storage_failed {A} (o : outcome A) : bool :=
  existsb failed_call (trace o).

(** The database after the fulfilled calls of a trace, made in its order. *)
Fixpoint replay (t : list event) (s : db) : db :=
  match t with
  | [] => s
  | Called op true :: t => replay t (perform op s).2
  | Called _ false :: t => replay t s
  end.

(** The calls of a trace fulfilled before its first rejected call. *)
Fixpoint completed (t : list event) : list event :=
  match t with
  | Called op true :: t => Called op true :: completed t
  | _ => []
  end.

(** *** Life of the service *)

Inductive action :=
| Startup
| Handle (r : route) (req : Request).

Definition act (a : action) (faults : list bool) (s : db) : db :=
  match a with
  | Startup => final (exec initializeCounter faults s)
  | Handle r req => final (exec (app r req) faults s)
  end.

(** The database after a sequence of startups and requests, each with the
    faults its calls meet. *)
Definition after (acts : list (action * list bool)) (s : db) : db :=
  foldl (λ s af, act af.1 af.2 s) s acts.

(** [id] was the [:appId] of some track request. *)
Definition tracked (id : string) (acts : list (action * list bool)) : Prop :=
  ∃ req faults,
    (Handle POST_totaldownloads_appId req, faults) ∈ acts ∧ params_appId req = id.

(** No per-application counter exists yet. *)
Definition fresh (s : db) : Prop :=
  ∀ id, id ≠ counter → totalDownload s !! id = None.

(** The mapping GET /totaldownloads answers with, if it answers with one. *)
Definition counts_of (o : outcome Response) : option (gmap string Z) :=
  match result o with
  | inl {| status := _; body := JCounts m |} => Some m
  | _ => None
  end.

(** *** The reserved id used as an application id *)

(** What one POST /totaldownloads/counter would do if its response carried
    the global count it leaves behind. *)
Definition reserved_id_answers_final_count (s : db) (req : Request) : Prop :=
  let o := exec (post_totaldownloads_appId req) [] s in
  count_of counter (final o) = count_of counter s + 2 ∧
  result o = inl (res_json (JTracked true (count_of counter (final o))
                                     "Download tracked successfully")) ∧
  ∀ m, counts_of (exec (get_totaldownloads req) [] (final o)) = Some m →
       m !! counter = None.

(** ** Sample inputs *)

Definition empty_db : db := {| downloadInfo := []; totalDownload := ∅ |}.

Definition request_for (a : string) : Request :=
  {| params_appId := a; body_userAgent := None; req_ip := Some "::1";
     remoteAddress := None; date_now := 0 |}.

(** One legacy download on record, one application counter, and no global
    counter. *)
Definition db_without_global : db :=
  {| downloadInfo := [download_record None (request_for "")];
     totalDownload := {[ "hub-mobile" := 3 ]} |}.

(** The global counter at 5. *)
Definition db_global_5 : db :=
  {| downloadInfo := []; totalDownload := {[ counter := 5 ]} |}.

(** ** The rest of the files *)

(** *** [run()] *)

Global Instance route_eq_dec : EqDecision route.
Proof. solve_decision. Defined.

(** The routes [run()] registers once [initializeCounter] has returned. *)
Definition all_routes : list route :=
  [GET_totaldownloads; GET_totaldownloads_appId; POST_totaldownloads_appId;
   POST_totaldownloads; GET_root].

(** [run()]: the whole body is one try block, whose catch only logs.  What it
    returns here is the list of the routes the application has when [run()]
    is done. *)
Definition run : prog (list route) :=
  try_catch
    (initializeCounter;;;
     Ret all_routes)
    (λ error, Ret []).

(** What the application does with a request once [run()] has left it with
    [routes]: the handler of a registered route answers; no handler of this
    server answers for a route that is not registered. *)
Definition dispatch (routes : list route) (r : route) (req : Request) :
    option (prog Response) :=
  if decide (r ∈ routes) then Some (app r req) else None.

(** *** The first version of the server *)

(** GET /totaldownloads of the version without per-application counters: it
    reads the global counter. *)
Definition get_totaldownloads_v1 (req : Request) : prog Response :=
  try_catch
    (let* counterDoc := await (TotalFindOne counter) in
     let totalDownloadCount :=
       match counterDoc with Some d => count d | None => 0 end in
     Ret (res_json (JCount totalDownloadCount)))
    (λ _, Ret (res_status_json 500 (JError "Failed to fetch download count"))).

(** *** The serverless variant *)

(** The handlers of the serverless variant share the module variable
    [isConnected] with [connectToDatabase].  A program of that module takes
    the value of the variable and gives, with what it returns or throws, the
    value it leaves in it. *)
Definition sprog (A : Type) : Type := bool → prog ((A + error) * bool).

Definition s_ret {A} (a : A) : sprog A := λ isConnected, Ret (inl a, isConnected).

Definition s_bind {A B} (p : sprog A) (f : A → sprog B) : sprog B :=
  λ isConnected,
    let* r := p isConnected in
    match r.1 with
    | inl a => f a r.2
    | inr e => Ret (inr e, r.2)
    end.

(** [try { p } catch (error) { h error }] in that module. *)
Definition s_try_catch {A} (p : sprog A) (h : error → sprog A) : sprog A :=
  λ isConnected,
    let* r := p isConnected in
    match r.1 with
    | inl a => Ret (inl a, r.2)
    | inr e => h e r.2
    end.

(** Statements that do not touch [isConnected]. *)
Definition s_lift {A} (p : prog A) : sprog A :=
  λ isConnected,
    try_catch (let* a := p in Ret (inl a, isConnected))
              (λ e, Ret (inr e, isConnected)).

(** [await connectToDatabase()]: the variable is assigned only by the last
    statement of its try block, so it keeps its value when the call throws. *)
Definition s_connect : sprog unit :=
  λ isConnected,
    try_catch (let* connected := connectToDatabase isConnected in
               Ret (inl (), connected))
              (λ e, Ret (inr e, isConnected)).

Notation "'do*' x := p 'in' q" := (s_bind p (λ x, q))
  (at level 10, x binder, p at level 100, q at level 200, only parsing).

(** GET /totaldownloads, serverless *)
Definition serverless_get_totaldownloads (req : Request) : sprog Response :=
  s_try_catch
    (do* _ := s_connect in
     s_lift
       (let* appCounters := await (TotalFindNe counter) in
        let downloadCounts := foldl set_count ∅ appCounters in
        Ret (res_json (JCounts downloadCounts))))
    (λ _, s_ret (res_status_json 500 (JError "Failed to fetch download counts"))).

(** GET /totaldownloads/:appId, serverless *)
Definition serverless_get_totaldownloads_appId (req : Request) : sprog Response :=
  s_try_catch
    (do* _ := s_connect in
     s_lift
       (let appId := params_appId req in
        let* appCounter := await (TotalFindOne appId) in
        let totalDownloadCount :=
          match appCounter with Some d => count d | None => 0 end in
        Ret (res_json (JCount totalDownloadCount))))
    (λ _, s_ret (res_status_json 500 (JError "Failed to fetch download count"))).

(** POST /totaldownloads/:appId, serverless *)
Definition serverless_post_totaldownloads_appId (req : Request) : sprog Response :=
  s_try_catch
    (do* _ := s_connect in
     s_lift
       (let appId := params_appId req in
        await (InfoInsertOne
                 {| appId := Some appId;
                    userAgent := default "Unknown" (or_string (body_userAgent req) None);
                    ip := or_string (req_ip req) (remoteAddress req);
                    createdAt := date_now req |});;;
        let* result := await (TotalFindOneAndUpdate appId true true) in
        await (TotalFindOneAndUpdate counter false true);;;
        let* n := value_count result in
        Ret (res_json (JTracked true n "Download tracked successfully"))))
    (λ _, s_ret (res_status_json 500 (JError "Failed to track download"))).

(** POST /totaldownloads, serverless *)
Definition serverless_post_totaldownloads (req : Request) : sprog Response :=
  s_try_catch
    (do* _ := s_connect in
     s_lift
       (await (InfoInsertOne
                 {| appId := None;
                    userAgent := default "Unknown" (or_string (body_userAgent req) None);
                    ip := or_string (req_ip req) (remoteAddress req);
                    createdAt := date_now req |});;;
        let* result := await (TotalFindOneAndUpdate counter true false) in
        let* n := value_count result in
        Ret (res_json (JTracked true n "Download tracked successfully"))))
    (λ _, s_ret (res_status_json 500 (JError "Failed to track download"))).

(** GET /, serverless: it does not connect. *)
Definition serverless_get_root (req : Request) : sprog Response :=
  s_ret (res_json (JMessage "Hello hub softwares server")).

Definition serverless_app (r : route) : Request → sprog Response :=
  match r with
  | GET_totaldownloads => serverless_get_totaldownloads
  | GET_totaldownloads_appId => serverless_get_totaldownloads_appId
  | POST_totaldownloads_appId => serverless_post_totaldownloads_appId
  | POST_totaldownloads => serverless_post_totaldownloads
  | GET_root => serverless_get_root
  end.

(** The response a serverless handler sent and the value it left in
    [isConnected]. *)
Definition sent {A} (o : outcome ((A + error) * bool)) : option (A * bool) :=
  match result o with
  | inl (inl a, b) => Some (a, b)
  | _ => None
  end.

(** ** More vocabulary *)

(** The response of a run, if one was sent. *)
Definition response_of (o : outcome Response) : option Response :=
  match result o with
  | inl r => Some r
  | inr _ => None
  end.

(** *** The increment of the route without an appId *)

(** What POST /totaldownloads would do on a database without the global
    counter document if its increment were an upsert. *)
Definition global_route_upserts (s : db) (req : Request) : Prop :=
  totalDownload s !! counter = None →
  let o := exec (post_totaldownloads req) [] s in
  response_of o = Some {| status := 200;
                          body := JTracked true 1 "Download tracked successfully" |} ∧
  totalDownload (final o) !! counter = Some 1.

Definition is_track (r : route) : bool :=
  match r with
  | POST_totaldownloads_appId | POST_totaldownloads => true
  | _ => false
  end.

(** The number of download records the requests append when none fails. *)
Definition total_tracks (reqs : list (route * Request)) : Z :=
  Z.of_nat (length (filter (λ rq, is_track rq.1 = true) reqs)).

(** No request uses the reserved id as an application id. *)
Definition reserved_unused (reqs : list (route * Request)) : Prop :=
  Forall (λ rq, rq.1 = POST_totaldownloads_appId → params_appId rq.2 ≠ counter) reqs.

(** The download records of one application. *)
Definition records_of (a : string) (s : db) : list DownloadRecord :=
  filter (λ r, appId r = Some a) (downloadInfo s).

(** How far the event log is ahead of the global counter, and the records of
    an application ahead of its counter. *)
Definition log_lead (s : db) : Z :=
  Z.of_nat (length (downloadInfo s)) - count_of counter s.

Definition app_lead (a : string) (s : db) : Z :=
  Z.of_nat (length (records_of a s)) - count_of a s.

(** [credited μ p c]: the thread [p] has raised the measure [μ] by [c], and
    whatever its calls meet, faults included, what it has raised [μ] by never
    becomes negative. *)
Inductive credited {A} (μ : db → Z) : prog A → Z → Prop :=
| credited_finished p c : finished p = true → 0 ≤ c → credited μ p c
| credited_await {X} (op : storage_op X) k c :
    0 ≤ c →
    (∀ fault s,
       credited μ (k (call op fault s).1) (c + (μ (call op fault s).2 - μ s))) →
    credited μ (Await op k) c.

(** [adds μ G p n]: the fault-free calls [p] still has to make add exactly
    [n] to the measure [μ], in whatever states satisfying [G] they are made. *)
Inductive adds {A} (μ : db → Z) (G : db → Prop) : prog A → Z → Prop :=
| adds_finished p : finished p = true → adds μ G p 0
| adds_await {X} (op : storage_op X) k n :
    (∀ s, G s → adds μ G (k (perform op s).1) (n - (μ (perform op s).2 - μ s))) →
    adds μ G (Await op k) n.

Definition log_size (s : db) : Z := Z.of_nat (length (downloadInfo s)).

(** The outcome of a run whose result is passed through [g], and the outcome
    of two runs made one after the other. *)
Definition map_outcome {A B} (g : A → B) (o : outcome A) : outcome B :=
  {| result := match result o with inl a => inl (g a) | inr e => inr e end;
     final := final o;
     trace := trace o |}.

Definition then_outcome {A B} (o1 : outcome A) (o2 : outcome B) : outcome B :=
  {| result := result o2; final := final o2; trace := trace o1 ++ trace o2 |}.

(** * Properties *)

(** ** The driver calls *)

Lemma findOneAndUpdate_upsert id after m :
  findOneAndUpdate id after true m =
    ((if after then Some (doc_of id (default 0 (m !! id) + 1))
      else doc_of id <$> m !! id),
     <[id := default 0 (m !! id) + 1]> m).
Proof.
  unfold findOneAndUpdate.
  destruct (m !! id) as [c|]; destruct after; reflexivity.
Qed.

Lemma findOneAndUpdate_present id after upsert m c :
  m !! id = Some c →
  findOneAndUpdate id after upsert m =
    (Some (doc_of id (if after then c + 1 else c)), <[id := c + 1]> m).
Proof. intros H. unfold findOneAndUpdate. by rewrite H. Qed.

Lemma findOneAndUpdate_absent id after m :
  m !! id = None → findOneAndUpdate id after false m = (None, m).
Proof. intros H. unfold findOneAndUpdate. by rewrite H. Qed.

Lemma count_of_insert id id' n s l :
  count_of id {| downloadInfo := l; totalDownload := <[id' := n]> (totalDownload s) |}
  = if decide (id' = id) then n else count_of id s.
Proof.
  unfold count_of; cbn. rewrite lookup_insert. by case_decide.
Qed.

(** ** Reading one counter *)

(** C8.  GET /totaldownloads/:appId for an appId without a counter document
    answers 200 with totalDownloadCount 0, makes the single call findOne, and
    leaves the database exactly as it was: the counter is not created. *)
Theorem get_unknown_app_is_zero (req : Request) (s : db) :
  totalDownload s !! params_appId req = None →
  let o := exec (get_totaldownloads_appId req) [] s in
  result o = inl {| status := 200; body := JCount 0 |} ∧
  final o = s ∧
  trace o = [Called (TotalFindOne (params_appId req)) true].
Proof.
  intros Habs. cbn. rewrite Habs. cbn. done.
Qed.

Lemma get_unknown_app_is_zero_witness :
  let o := exec (get_totaldownloads_appId (request_for "unknown-app")) [] db_without_global in
  result o = inl {| status := 200; body := JCount 0 |} ∧
  final o = db_without_global ∧
  trace o = [Called (TotalFindOne "unknown-app") true].
Proof.
  apply (get_unknown_app_is_zero (request_for "unknown-app") db_without_global).
  vm_compute. reflexivity.
Defined.

(** A read never writes, not even when the counter exists or the call fails. *)
Lemma get_app_reads_only (req : Request) (faults : list bool) (s : db) :
  final (exec (get_totaldownloads_appId req) faults s) = s.
Proof.
  destruct faults as [|[] ?]; cbn; [|done|];
    by destruct (totalDownload s !! params_appId req).
Qed.

(** ** Tracking a download *)

(** C2.  A POST /totaldownloads/:appId that succeeds has made exactly three
    calls, in this order: the insertion of the download record in the event
    log, the upserting increment of the counter appId, the upserting
    increment of the global counter.  The totalDownloadCount of its response
    is the count of the appId counter right after the second call, which is
    its count before the request plus one, whatever the global count is. *)
Theorem post_app_order (req : Request) (faults : list bool) (s : db) :
  let o := exec (post_totaldownloads_appId req) faults s in
  let a := params_appId req in
  let r := download_record (Some a) req in
  let s1 := (perform (InfoInsertOne r) s).2 in
  let s2 := (perform (TotalFindOneAndUpdate a true true) s1).2 in
  let s3 := (perform (TotalFindOneAndUpdate counter false true) s2).2 in
  succeeded o →
  trace o = [Called (InfoInsertOne r) true;
             Called (TotalFindOneAndUpdate a true true) true;
             Called (TotalFindOneAndUpdate counter false true) true] ∧
  final o = s3 ∧
  s1 = {| downloadInfo := downloadInfo s ++ [r]; totalDownload := totalDownload s |} ∧
  s2 = {| downloadInfo := downloadInfo s1;
          totalDownload := <[a := count_of a s + 1]> (totalDownload s1) |} ∧
  s3 = {| downloadInfo := downloadInfo s2;
          totalDownload := <[counter := count_of counter s2 + 1]> (totalDownload s2) |} ∧
  result o = inl {| status := 200;
                    body := JTracked true (count_of a s2)
                                     "Download tracked successfully" |} ∧
  count_of a s2 = count_of a s + 1.
Proof.
  intros o a r s1 s2 s3. subst o s1 s2 s3.
  unfold post_totaldownloads_appId, succeeded.
  destruct faults as [|[] [|[] [|[] faults]]]; cbn;
    rewrite ?findOneAndUpdate_upsert; cbn.
  all: try (intros; discriminate).
  all: intros _; unfold count_of; cbn; rewrite ?lookup_insert_eq; cbn; auto 10.
Qed.

Lemma post_app_order_witness :
  let o := exec (post_totaldownloads_appId (request_for "hub-mobile")) [] db_without_global in
  succeeded o ∧
  result o = inl {| status := 200;
                    body := JTracked true 4 "Download tracked successfully" |} ∧
  count_of counter (final o) = 1.
Proof.
  assert (Hs : succeeded (exec (post_totaldownloads_appId (request_for "hub-mobile")) []
                               db_without_global)) by (vm_compute; reflexivity).
  destruct (post_app_order (request_for "hub-mobile") [] db_without_global Hs)
    as (_ & Hf & _ & _ & _ & Hr & _).
  split; [exact Hs|]. split.
  - rewrite Hr. vm_compute. reflexivity.
  - rewrite Hf. vm_compute. reflexivity.
Defined.

(** C9.  A POST /totaldownloads (no appId) that succeeds changes one counter
    only, the global one, which it increments by one: every other document of
    the counter store, present or absent, is the same before and after, so no
    per-application counter is created or modified. *)
Theorem post_global_frame (req : Request) (faults : list bool) (s : db) :
  let o := exec (post_totaldownloads req) faults s in
  succeeded o →
  (∀ id, id ≠ counter → totalDownload (final o) !! id = totalDownload s !! id) ∧
  (∃ c, totalDownload s !! counter = Some c ∧
        totalDownload (final o) !! counter = Some (c + 1) ∧
        result o = inl {| status := 200;
                          body := JTracked true (c + 1)
                                           "Download tracked successfully" |}) ∧
  downloadInfo (final o) = downloadInfo s ++ [download_record None req].
Proof.
  intros o. subst o. unfold post_totaldownloads, succeeded.
  destruct (totalDownload s !! counter) as [c|] eqn:Hc;
    destruct faults as [|[] [|[] faults]]; cbn.
  all: try (intros; discriminate).
  all: rewrite ?(findOneAndUpdate_present _ _ _ _ _ Hc),
         ?(findOneAndUpdate_absent _ _ _ Hc); cbn.
  all: try (intros; discriminate).
  all: intros _; repeat split.
  all: try (intros id Hid; by rewrite lookup_insert_ne).
  all: exists c; by rewrite lookup_insert_eq.
Qed.

Lemma post_global_frame_witness :
  let o := exec (post_totaldownloads (request_for "")) [] db_global_5 in
  succeeded o ∧
  totalDownload (final o) !! "hub-mobile" = totalDownload db_global_5 !! "hub-mobile".
Proof.
  assert (Hs : succeeded (exec (post_totaldownloads (request_for "")) [] db_global_5))
    by (vm_compute; reflexivity).
  split; [exact Hs|].
  apply (post_global_frame (request_for "") [] db_global_5 Hs).
  vm_compute. discriminate.
Defined.

(** Without [succeeded] as well: whatever the faults, the route leaves every
    per-application counter alone. *)
Lemma post_global_spares_apps (req : Request) (faults : list bool) (s : db) id :
  id ≠ counter →
  totalDownload (final (exec (post_totaldownloads req) faults s)) !! id
  = totalDownload s !! id.
Proof.
  intros Hid. unfold post_totaldownloads.
  destruct (totalDownload s !! counter) as [c|] eqn:Hc;
    destruct faults as [|[] [|[] faults]]; cbn.
  all: rewrite ?(findOneAndUpdate_present _ _ _ _ _ Hc),
         ?(findOneAndUpdate_absent _ _ _ Hc); cbn.
  all: by rewrite ?lookup_insert_ne.
Qed.

(** The increment of POST /totaldownloads is not an upsert.  On a database
    without the global counter document the request appends its download
    record, finds nothing to increment, creates nothing, and answers 500;
    POST /totaldownloads/:appId on the same database does create the global
    counter at 1. *)
Theorem post_global_without_counter :
  let o := exec (post_totaldownloads (request_for "")) [] db_without_global in
  let o' := exec (post_totaldownloads_appId (request_for "hub-mobile")) [] db_without_global in
  result o = inl {| status := 500; body := JError "Failed to track download" |} ∧
  trace o = [Called (InfoInsertOne (download_record None (request_for ""))) true;
             Called (TotalFindOneAndUpdate counter true false) true] ∧
  totalDownload (final o) = totalDownload db_without_global ∧
  totalDownload (final o) !! counter = None ∧
  length (downloadInfo (final o)) = 2%nat ∧
  succeeded o' ∧
  totalDownload (final o') !! counter = Some 1.
Proof. vm_compute. repeat split; reflexivity. Qed.

(** The same on every such database. *)
Lemma post_global_absent (req : Request) (s : db) :
  totalDownload s !! counter = None →
  let o := exec (post_totaldownloads req) [] s in
  result o = inl {| status := 500; body := JError "Failed to track download" |} ∧
  final o = {| downloadInfo := downloadInfo s ++ [download_record None req];
               totalDownload := totalDownload s |}.
Proof.
  intros Hc. cbn. rewrite (findOneAndUpdate_absent _ _ _ Hc). cbn. done.
Qed.

(** Every increment of POST /totaldownloads/:appId is an upsert: an absent
    counter, the global one included, is created with count 1. *)
Lemma post_app_upserts (req : Request) (s : db) :
  let o := exec (post_totaldownloads_appId req) [] s in
  let a := params_appId req in
  (totalDownload s !! a = None →
   result o = inl {| status := 200;
                     body := JTracked true 1 "Download tracked successfully" |}) ∧
  (a ≠ counter → totalDownload s !! a = None → totalDownload (final o) !! a = Some 1) ∧
  (a ≠ counter → totalDownload s !! counter = None →
   totalDownload (final o) !! counter = Some 1).
Proof.
  cbn. rewrite !findOneAndUpdate_upsert. cbn. repeat split.
  - intros ->. done.
  - intros Ha Hn. rewrite lookup_insert_ne by done.
    rewrite lookup_insert_eq, Hn. done.
  - intros Ha Hn. rewrite lookup_insert_eq.
    rewrite lookup_insert_ne by done. rewrite Hn. done.
Qed.

(** ** Startup *)

(** C5.  When the global counter is absent and the event log holds K
    documents, [initializeCounter] creates the global counter with count K
    and touches nothing else; when the global counter is present, it leaves
    the whole database, and so the count, unchanged. *)
Theorem initializeCounter_seeds (s : db) :
  let o := exec initializeCounter [] s in
  result o = inl () ∧
  (totalDownload s !! counter = None →
   final o = {| downloadInfo := downloadInfo s;
                totalDownload :=
                  <[counter := Z.of_nat (length (downloadInfo s))]> (totalDownload s) |} ∧
   count_of counter (final o) = Z.of_nat (length (downloadInfo s))) ∧
  (∀ c, totalDownload s !! counter = Some c →
        final o = s ∧ count_of counter (final o) = c).
Proof.
  unfold initializeCounter, count_of. cbn.
  destruct (totalDownload s !! counter) as [c|] eqn:Hc; cbn; rewrite ?Hc; cbn.
  - split; [done|]. split; [done|]. by intros c' [= <-].
  - split; [done|]. split; [|done]. intros _. by rewrite lookup_insert_eq.
Qed.

(** Running it again changes nothing. *)
Lemma initializeCounter_idempotent (s : db) :
  let s' := final (exec initializeCounter [] s) in
  final (exec initializeCounter [] s') = s'.
Proof.
  unfold initializeCounter. cbn.
  destruct (totalDownload s !! counter) as [c|] eqn:Hc; cbn; rewrite ?Hc; cbn;
    [done|by rewrite lookup_insert_eq].
Qed.

Lemma initializeCounter_seeds_witness :
  count_of counter (final (exec initializeCounter [] db_without_global)) = 1 ∧
  final (exec initializeCounter [] db_global_5) = db_global_5.
Proof.
  split.
  - destruct (initializeCounter_seeds db_without_global) as (_ & Habsent & _).
    destruct Habsent as [_ Hcount]; [vm_compute; reflexivity|].
    rewrite Hcount. reflexivity.
  - destruct (initializeCounter_seeds db_global_5) as (_ & _ & Hpresent).
    destruct (Hpresent 5) as [Hfinal _]; [vm_compute; reflexivity|].
    exact Hfinal.
Defined.

(** ** Reading all counters *)

Lemma or_zero_id n : or_zero n = n.
Proof. unfold or_zero. case_decide; congruence. Qed.

Lemma foldl_set_count_notin (l : list CounterDoc) (o : gmap string Z) k :
  k ∉ _id <$> l → foldl set_count o l !! k = o !! k.
Proof.
  revert o. induction l as [|d l IH]; intros o Hk; [done|].
  cbn in *. apply not_elem_of_cons in Hk as [Hd Hl].
  rewrite IH by done. unfold set_count.
  case_decide; [done|]. by rewrite lookup_insert_ne.
Qed.

Lemma foldl_set_count_proto (l : list CounterDoc) (o : gmap string Z) :
  foldl set_count o l !! proto = o !! proto.
Proof.
  revert o. induction l as [|d l IH]; intros o; [done|].
  cbn. rewrite IH. unfold set_count.
  case_decide; [done|]. by rewrite lookup_insert_ne.
Qed.

Lemma foldl_set_count_in (l : list CounterDoc) (o : gmap string Z) d :
  NoDup (_id <$> l) → d ∈ l → _id d ≠ proto →
  foldl set_count o l !! _id d = Some (or_zero (count d)).
Proof.
  revert o. induction l as [|d' l IH]; intros o Hnd Hd Hp.
  - by apply elem_of_nil in Hd.
  - cbn in *. apply NoDup_cons in Hnd as [Hd' Hnd].
    apply elem_of_cons in Hd as [->|Hd].
    + rewrite foldl_set_count_notin by done.
      unfold set_count. rewrite decide_False by done. by rewrite lookup_insert_eq.
    + by apply IH.
Qed.

Lemma find_ne_ids id (m : gmap string Z) :
  _id <$> find_ne id m = (map_to_list (filter (λ kv, kv.1 ≠ id) m)).*1.
Proof.
  unfold find_ne. rewrite <- list_fmap_compose. by apply list_fmap_ext.
Qed.

(** The object GET /totaldownloads builds holds the documents of the counter
    store other than [id], under their [_id], with their [count]; a document
    whose [_id] is "__proto__" leaves no property in it. *)
Lemma downloadCounts_lookup id (m : gmap string Z) k :
  foldl set_count ∅ (find_ne id m) !! k
  = if decide (k = id ∨ k = proto) then None else m !! k.
Proof.
  destruct (decide (k = proto)) as [->|Hp].
  { rewrite foldl_set_count_proto, decide_True by (by right). done. }
  destruct (decide (k = id)) as [->|Hk].
  - rewrite decide_True by (by left).
    rewrite foldl_set_count_notin; [done|].
    rewrite find_ne_ids. intros [[k' c] [Hk' Hin]]%list_elem_of_fmap.
    cbn in Hk'. subst k'.
    apply elem_of_map_to_list, map_lookup_filter_Some in Hin as [_ Hne].
    by apply Hne.
  - rewrite decide_False by (by intros [?|?]).
    destruct (m !! k) as [c|] eqn:Hm.
    + rewrite <- (or_zero_id c).
      apply (foldl_set_count_in _ _ (doc_of k c)).
      * rewrite find_ne_ids. apply NoDup_fst_map_to_list.
      * unfold find_ne. apply list_elem_of_fmap. exists (k, c). split; [done|].
        apply elem_of_map_to_list, map_lookup_filter_Some. done.
      * done.
    + rewrite foldl_set_count_notin; [done|].
      rewrite find_ne_ids. intros [[k' c] [Hk' Hin]]%list_elem_of_fmap.
      cbn in Hk'. subst k'.
      apply elem_of_map_to_list, map_lookup_filter_Some in Hin as [Hin _].
      congruence.
Qed.

(** What GET /totaldownloads answers with: the counter store without the
    global counter, and without the id "__proto__", when its call is
    fulfilled, and no mapping otherwise. *)
Lemma get_all_counts (req : Request) (faults : list bool) (s : db) (m : gmap string Z) :
  counts_of (exec (get_totaldownloads req) faults s) = Some m →
  ∀ k, m !! k = if decide (k = counter ∨ k = proto) then None
                else totalDownload s !! k.
Proof.
  unfold get_totaldownloads, counts_of.
  destruct faults as [|[] ?]; cbn; [|done|]; intros [= <-] k;
    apply (downloadCounts_lookup counter).
Qed.

Lemma get_all_reads_only (req : Request) (faults : list bool) (s : db) :
  final (exec (get_totaldownloads req) faults s) = s.
Proof. by destruct faults as [|[] ?]. Qed.

(** What one action can do to a per-application counter: nothing, unless the
    action is a track request for that very id, which may have incremented
    it. *)
Lemma act_app_counter (a : action) (faults : list bool) (s : db) id :
  id ≠ counter →
  totalDownload (act a faults s) !! id = totalDownload s !! id ∨
  (∃ req, a = Handle POST_totaldownloads_appId req ∧ params_appId req = id ∧
          totalDownload (act a faults s) !! id = Some (count_of id s + 1)).
Proof.
  intros Hid. destruct a as [|[] req]; cbn [act app].
  - left. unfold initializeCounter.
    destruct (totalDownload s !! counter) as [c|] eqn:Hc;
      destruct faults as [|[] [|[] [|[] faults]]]; cbn; rewrite ?Hc; cbn;
      rewrite ?Hc; cbn; by rewrite ?lookup_insert_ne.
  - left. by rewrite get_all_reads_only.
  - left. by rewrite get_app_reads_only.
  - unfold post_totaldownloads_appId.
    destruct (decide (params_appId req = id)) as [Ha|Ha].
    + destruct faults as [|[] [|[] [|[] faults]]]; cbn;
        rewrite ?findOneAndUpdate_upsert; cbn; auto.
      all: right; exists req; split; [done|]; split; [done|].
      all: rewrite ?(lookup_insert_ne _ counter) by done.
      all: by rewrite Ha, lookup_insert_eq.
    + left.
      destruct faults as [|[] [|[] [|[] faults]]]; cbn;
        rewrite ?findOneAndUpdate_upsert; cbn; auto.
      all: by rewrite ?lookup_insert_ne.
  - left. by apply post_global_spares_apps.
  - left. done.
Qed.

Lemma after_snoc acts a faults s :
  after (acts ++ [(a, faults)]) s = act a faults (after acts s).
Proof. unfold after. by rewrite foldl_app. Qed.

Lemma tracked_snoc id acts af : tracked id acts → tracked id (acts ++ [af]).
Proof.
  intros (req & faults & Hin & Hid). exists req, faults.
  split; [|done]. apply elem_of_app. by left.
Qed.

(** Every per-application counter of a service started on a fresh counter
    store belongs to an id that was tracked, and is at least 1. *)
Lemma app_counters_tracked (s0 : db) (acts : list (action * list bool)) id n :
  fresh s0 → id ≠ counter →
  totalDownload (after acts s0) !! id = Some n →
  tracked id acts ∧ 0 < n.
Proof.
  intros Hfresh Hid. revert n.
  induction acts as [|[a faults] acts IH] using rev_ind; intros n.
  - cbn. rewrite Hfresh by done. discriminate.
  - rewrite after_snoc.
    destruct (act_app_counter a faults (after acts s0) id Hid)
      as [->|(req & -> & Ha & ->)].
    + intros Hn. destruct (IH n Hn). split; [by apply tracked_snoc|done].
    + intros [= <-]. split.
      * exists req, faults. split; [|done]. apply elem_of_app. right.
        by apply list_elem_of_singleton.
      * unfold count_of.
        destruct (totalDownload (after acts s0) !! id) as [c|] eqn:Hc; cbn; [|lia].
        destruct (IH c eq_refl). lia.
Qed.

(** C7.  The mapping GET /totaldownloads answers with never has an entry for
    the reserved id "counter", whatever the counter store holds, and has no
    entry for an id without a counter document.  On a service started with
    no per-application counter, after any sequence of startups and requests,
    with any failures of their calls, every entry of the mapping belongs to
    an application id that some POST /totaldownloads/:appId named, and its
    count is at least 1: an id never tracked has no entry, and no entry is an
    explicit zero. *)
Theorem get_all_excludes (req : Request) (faults : list bool) (s : db)
    (m : gmap string Z) :
  counts_of (exec (get_totaldownloads req) faults s) = Some m →
  m !! counter = None ∧
  (∀ id, totalDownload s !! id = None → m !! id = None) ∧
  (∀ s0 acts, fresh s0 → s = after acts s0 →
     ∀ id n, m !! id = Some n → tracked id acts ∧ 0 < n).
Proof.
  intros Hm. pose proof (get_all_counts _ _ _ _ Hm) as Hlook.
  split; [|split].
  - rewrite Hlook. by rewrite decide_True by (by left).
  - intros id Hid. rewrite Hlook. by case_decide.
  - intros s0 acts Hfresh -> id n. rewrite Hlook.
    case_decide as Hid; [done|]. apply app_counters_tracked; [done|].
    intros ->. apply Hid. by left.
Qed.

Lemma get_all_excludes_witness :
  let acts := [(Startup, []);
               (Handle POST_totaldownloads_appId (request_for "hub-mobile"), [])] in
  let m : gmap string Z := {[ "hub-mobile" := 1 ]} in
  counts_of (exec (get_totaldownloads (request_for "")) [] (after acts empty_db)) = Some m ∧
  m !! counter = None ∧
  tracked "hub-mobile" acts.
Proof.
  intros acts m.
  assert (Hm : counts_of (exec (get_totaldownloads (request_for "")) []
                               (after acts empty_db)) = Some m)
    by (vm_compute; reflexivity).
  destruct (get_all_excludes _ _ _ _ Hm) as (Hcounter & _ & Htracked).
  split; [exact Hm|]. split; [exact Hcounter|].
  refine (proj1 (Htracked empty_db acts _ eq_refl "hub-mobile" 1 _)).
  - intros id _. apply lookup_empty.
  - vm_compute. reflexivity.
Defined.

(** ** The reserved id as an application id *)

(** C10 as stated fails: with the global counter at 5, POST
    /totaldownloads/counter answers 6 while the count it leaves is 7. *)
Lemma reserved_id_not_final_count :
  ¬ reserved_id_answers_final_count db_global_5 (request_for counter).
Proof.
  intros (_ & Hresp & _). vm_compute in Hresp. discriminate Hresp.
Qed.

(** C10, as the code has it.  POST /totaldownloads/counter increments the
    global counter twice, once as the counter named by appId and once as the
    global counter, so its count grows by 2.  The totalDownloadCount of the
    response is the count after the first of the two increments, the count
    before the request plus 1, which is one less than the count the request
    leaves behind.  GET /totaldownloads never lists the id. *)
Theorem reserved_id_double_increment (req : Request) (s : db) :
  params_appId req = counter →
  let o := exec (post_totaldownloads_appId req) [] s in
  count_of counter (final o) = count_of counter s + 2 ∧
  result o = inl {| status := 200;
                    body := JTracked true (count_of counter s + 1)
                                     "Download tracked successfully" |} ∧
  count_of counter s + 1 = count_of counter (final o) - 1 ∧
  ∀ req' faults m,
    counts_of (exec (get_totaldownloads req') faults (final o)) = Some m →
    m !! counter = None.
Proof.
  intros Ha o.
  assert (Hfinal : count_of counter (final o) = count_of counter s + 2).
  { subst o. unfold post_totaldownloads_appId. rewrite Ha. cbn.
    rewrite !findOneAndUpdate_upsert. unfold count_of. cbn.
    rewrite !lookup_insert_eq. cbn. lia. }
  split; [done|]. split; [|split].
  - subst o. unfold post_totaldownloads_appId. rewrite Ha. cbn.
    rewrite !findOneAndUpdate_upsert. done.
  - lia.
  - intros req' faults m Hm. rewrite (get_all_counts _ _ _ _ Hm).
    by rewrite decide_True by (by left).
Qed.

Lemma reserved_id_double_increment_witness :
  let o := exec (post_totaldownloads_appId (request_for counter)) [] db_global_5 in
  count_of counter (final o) = 7 ∧
  result o = inl {| status := 200;
                    body := JTracked true 6 "Download tracked successfully" |}.
Proof.
  destruct (reserved_id_double_increment (request_for counter) db_global_5 eq_refl)
    as (Hfinal & Hresp & _).
  split; [rewrite Hfinal|rewrite Hresp]; vm_compute; reflexivity.
Defined.

(** ** Failing calls *)

Lemma perform_rejected {X} (op : storage_op X) (s : db) :
  is_inl (perform op s).1 = false → (perform op s).2 = s.
Proof.
  destruct op; cbn; try discriminate.
  by destruct (totalDownload s !! _id d).
Qed.

(** Running a program changes the database by its fulfilled calls and by
    nothing else. *)
Lemma exec_replay {A} (p : prog A) (faults : list bool) (s : db) :
  final (exec p faults s) = replay (trace (exec p faults s)) s.
Proof.
  revert faults s. induction p as [a|e|X op k IH]; intros faults s; [done..|].
  cbn. rewrite IH. unfold call.
  destruct (hd false faults); cbn; [done|].
  destruct (is_inl (perform op s).1) eqn:Hr; [done|].
  by rewrite (perform_rejected op s Hr).
Qed.

(** C6.  Whatever the route, when a driver call of the handler is rejected
    the response is 500 with the body { error: <the route's message> }.  The
    rejected call is the last call the handler makes: nothing is retried and
    nothing is undone, so the database is left as the calls fulfilled before
    it made it. *)
Theorem storage_failure_500 (r : route) (req : Request) (faults : list bool) (s : db) :
  let o := exec (app r req) faults s in
  storage_failed o = true →
  result o = inl {| status := 500; body := JError (failure_message r) |} ∧
  length (trace o) = S (length (completed (trace o))) ∧
  final o = replay (completed (trace o)) s.
Proof.
  intros o. subst o. unfold storage_failed.
  destruct r; cbn [app failure_message].
  - destruct faults as [|[] ?]; cbn; [discriminate|done|discriminate].
  - destruct faults as [|[] ?]; cbn; [discriminate|done|discriminate].
  - unfold post_totaldownloads_appId.
    destruct faults as [|[] [|[] [|[] faults]]]; cbn;
      rewrite ?findOneAndUpdate_upsert; cbn; done.
  - unfold post_totaldownloads.
    destruct (totalDownload s !! counter) as [c|] eqn:Hc;
      destruct faults as [|[] [|[] faults]]; cbn;
      rewrite ?(findOneAndUpdate_present _ _ _ _ _ Hc),
        ?(findOneAndUpdate_absent _ _ _ Hc); cbn; done.
  - cbn. discriminate.
Qed.

(** The track request whose third call fails: the record is in the event
    log and the application counter is incremented, the global counter is
    not, and the answer is the same 500 as if nothing had been done. *)
Lemma storage_failure_500_witness :
  let o := exec (app POST_totaldownloads_appId (request_for "hub-mobile"))
                [false; false; true] db_global_5 in
  result o = inl {| status := 500; body := JError "Failed to track download" |} ∧
  length (downloadInfo (final o)) = 1%nat ∧
  count_of "hub-mobile" (final o) = 1 ∧
  count_of counter (final o) = 5.
Proof.
  destruct (storage_failure_500 POST_totaldownloads_appId (request_for "hub-mobile")
              [false; false; true] db_global_5) as (Hresp & _ & Hfinal).
  { vm_compute. reflexivity. }
  split; [exact Hresp|]. rewrite Hfinal. vm_compute. repeat split; reflexivity.
Defined.

(** Where each call of a track request can fail, and what is left then. *)
Lemma post_app_partial (req : Request) (s : db) :
  let a := params_appId req in
  let r := download_record (Some a) req in
  let s1 := {| downloadInfo := downloadInfo s ++ [r]; totalDownload := totalDownload s |} in
  let s2 := {| downloadInfo := downloadInfo s ++ [r];
               totalDownload := <[a := count_of a s + 1]> (totalDownload s) |} in
  final (exec (post_totaldownloads_appId req) [true] s) = s ∧
  final (exec (post_totaldownloads_appId req) [false; true] s) = s1 ∧
  final (exec (post_totaldownloads_appId req) [false; false; true] s) = s2.
Proof.
  cbn. rewrite !findOneAndUpdate_upsert. done.
Qed.

(** ** Concurrent requests *)

Lemma Zsum_insert (l : list Z) i x y :
  l !! i = Some x → Zsum (<[i := y]> l) = Zsum l - x + y.
Proof.
  revert i. induction l as [|z l IH]; intros [|i] Hi; try done; cbn in Hi.
  - injection Hi as ->. cbn. lia.
  - change (z + Zsum (<[i := y]> l) = z + Zsum l - x + y).
    rewrite (IH i Hi). lia.
Qed.

Lemma owes_inv {A} G id (p : prog A) n :
  owes G id p n →
  match p with
  | Await op k =>
      ∀ s, G s → owes G id (k (perform op s).1)
                      (n - (count_of id (perform op s).2 - count_of id s))
  | _ => n = 0
  end.
Proof. intros H. destruct H as [p Hp|X op k n H]; [by destruct p|done]. Qed.

Lemma owes_done {A} G id (p : prog A) n :
  finished p = true → n = 0 → owes G id p n.
Proof. intros Hp ->. by constructor. Qed.

Lemma step_pool_await {A} (c : pool A) i fault {X} (op : storage_op X) k :
  threads c !! i = Some (Await op k) →
  step_pool c i fault =
    {| store := (call op fault (store c)).2;
       threads := <[i := k (call op fault (store c)).1]> (threads c);
       history := history c ++ [(i, Called op (is_inl (call op fault (store c)).1))] |}.
Proof. intros H. unfold step_pool. by rewrite H. Qed.

Lemma step_pool_idle {A} (c : pool A) i fault :
  (∀ p, threads c !! i = Some p → finished p = true) →
  step_pool c i fault = c.
Proof.
  intros H. unfold step_pool.
  destruct (threads c !! i) as [[a|e|X op k]|] eqn:Hi; try done.
  by specialize (H _ eq_refl).
Qed.

(** A step of a thread known to be done, or not to exist. *)
Ltac idle Hi :=
  rewrite step_pool_idle by (let p := fresh in intros p; rewrite Hi; by intros [= <-]).

Lemma run_pool_cons {A} (c : pool A) i fault sched :
  run_pool c ((i, fault) :: sched) = run_pool (step_pool c i fault) sched.
Proof. done. Qed.

Lemma run_pool_app {A} (c : pool A) sched sched' :
  run_pool c (sched ++ sched') = run_pool (run_pool c sched) sched'.
Proof. apply foldl_app. Qed.

Lemma run_pool_length {A} (c : pool A) sched :
  length (threads (run_pool c sched)) = length (threads c).
Proof.
  revert c. induction sched as [|[j f] sched IH]; intros c; [done|].
  rewrite run_pool_cons, IH. unfold step_pool.
  destruct (threads c !! j) as [[?|?|? ? ?]|]; try done. cbn. apply length_insert.
Qed.

Section balance.
Context {A : Type} (G : db → Prop) (id : string).
Hypothesis G_stable : ∀ X (op : storage_op X) s, G s → G (perform op s).2.

(** A fault-free step keeps the balance: what the counter holds plus what
    the threads still owe it. *)
Lemma step_pool_owes (c : pool A) i (ns : list Z) :
  Forall2 (owes G id) (threads c) ns → G (store c) →
  ∃ ns', Forall2 (owes G id) (threads (step_pool c i false)) ns' ∧
         G (store (step_pool c i false)) ∧
         count_of id (store (step_pool c i false)) + Zsum ns'
         = count_of id (store c) + Zsum ns.
Proof.
  intros Hall HG.
  destruct (threads c !! i) as [[a|e|X op k]|] eqn:Hi.
  1,2,4: rewrite step_pool_idle by (intros p; rewrite Hi; by intros [= <-]);
         by exists ns.
  rewrite (step_pool_await _ _ _ _ _ Hi). cbn.
  destruct (Forall2_lookup_l _ _ _ _ _ Hall Hi) as (n & Hn & Hown).
  apply owes_inv in Hown.
  exists (<[i := n - (count_of id (perform op (store c)).2 - count_of id (store c))]> ns).
  split; [|split].
  - apply Forall2_insert; [done|]. by apply Hown.
  - by apply G_stable.
  - rewrite (Zsum_insert _ _ _ _ Hn). lia.
Qed.

Lemma run_pool_owes (sched : list (nat * bool)) (c : pool A) (ns : list Z) :
  faultless sched →
  Forall2 (owes G id) (threads c) ns → G (store c) →
  ∃ ns', Forall2 (owes G id) (threads (run_pool c sched)) ns' ∧
         count_of id (store (run_pool c sched)) + Zsum ns'
         = count_of id (store c) + Zsum ns.
Proof.
  revert c ns. induction sched as [|[i f] sched IH]; intros c ns Hf Hall HG.
  - by exists ns.
  - apply Forall_cons in Hf as [Hi Hf]. cbn in Hi. subst f.
    rewrite run_pool_cons.
    destruct (step_pool_owes c i ns Hall HG) as (ns1 & Hall1 & HG1 & Hbal1).
    destruct (IH _ ns1 Hf Hall1 HG1) as (ns2 & Hall2 & Hbal2).
    exists ns2. split; [done|]. lia.
Qed.

Lemma owes_all_finished (ts : list (prog A)) (ns : list Z) :
  Forall2 (owes G id) ts ns → Forall (λ p, finished p = true) ts → Zsum ns = 0.
Proof.
  induction 1 as [|p n ts ns Hp _ IH]; intros Hfin; [done|].
  apply Forall_cons in Hfin as [Hfp Hfin].
  change (n + Zsum ns = 0). rewrite (IH Hfin).
  apply owes_inv in Hp. destruct p; cbn in Hp; [lia|lia|done].
Qed.
End balance.

(** No call ever removes a counter. *)
Lemma perform_present {X} (op : storage_op X) (s : db) id :
  present id s → present id (perform op s).2.
Proof.
  unfold present. intros Hp. destruct op; cbn; try done.
  - destruct (totalDownload s !! _id d); cbn; [done|].
    rewrite lookup_insert. case_decide; [by eexists|done].
  - unfold findOneAndUpdate.
    destruct (totalDownload s !! id0) as [c|] eqn:Hc; [|destruct upsert]; cbn;
      try done; rewrite lookup_insert; case_decide; by eauto.
Qed.

Lemma count_of_upsert id a after (s : db) :
  count_of id (perform (TotalFindOneAndUpdate a after true) s).2 - count_of id s
  = if decide (a = id) then 1 else 0.
Proof.
  cbn. rewrite findOneAndUpdate_upsert. cbn. rewrite count_of_insert.
  case_decide; [subst; unfold count_of|]; lia.
Qed.

Lemma count_of_update_present id a after upsert (s : db) :
  present a s →
  count_of id (perform (TotalFindOneAndUpdate a after upsert) s).2 - count_of id s
  = if decide (a = id) then 1 else 0.
Proof.
  intros [c Hc]. cbn. rewrite (findOneAndUpdate_present _ _ _ _ _ Hc). cbn.
  rewrite count_of_insert. case_decide; [subst; unfold count_of; rewrite Hc; cbn|]; lia.
Qed.

(** Each handler adds to a counter what [increments] says, whatever the
    other requests do in between; POST /totaldownloads needs the global
    counter to exist for that. *)
Lemma app_owes (G : db → Prop) id (r : route) (req : Request) :
  (r = POST_totaldownloads → ∀ s, G s → present counter s) →
  owes G id (app r req) (increments id r req).
Proof.
  intros HG. destruct r; cbn [app increments].
  - apply owes_await. intros s _. apply owes_done; [done|]. cbn. lia.
  - apply owes_await. intros s _. apply owes_done; [done|]. cbn. lia.
  - apply owes_await. intros s0 _. cbn -[perform count_of].
    apply owes_await. intros s1 _. cbn -[perform count_of].
    apply owes_await. intros s2 _. apply owes_done.
    + cbn. by rewrite !findOneAndUpdate_upsert.
    + rewrite !count_of_upsert. unfold count_of. cbn.
      repeat case_decide; try lia; congruence.
  - apply owes_await. intros s0 HG0. cbn -[perform count_of].
    apply owes_await. intros s1 HG1. apply owes_done.
    + cbn. destruct (HG eq_refl s1 HG1) as [c Hc].
      by rewrite (findOneAndUpdate_present _ _ _ _ _ Hc).
    + rewrite (count_of_update_present _ _ _ _ _ (HG eq_refl s1 HG1)).
      unfold count_of. cbn.
      repeat case_decide; try lia; congruence.
  - apply owes_done; done.
Qed.

Lemma Zsum_increments id (reqs : list (route * Request)) :
  Zsum ((λ rq, increments id rq.1 rq.2) <$> reqs) = total_increments id reqs.
Proof.
  induction reqs as [|rq reqs IH]; [done|].
  change (increments id rq.1 rq.2 + Zsum ((λ rq, increments id rq.1 rq.2) <$> reqs)
          = increments id rq.1 rq.2 + total_increments id reqs).
  by rewrite IH.
Qed.

(** C1.  Take any requests served at once, their driver calls interleaved in
    any order, none of them failing, and any counter id.  When all the
    handlers are done the counter holds what it held before plus the number
    of increment calls the requests made on it: N requests POST
    /totaldownloads/:appId for one application add exactly N to its counter
    and exactly N to the global counter.  No increment is lost.  (POST
    /totaldownloads increments only a global counter that exists, hence the
    first hypothesis.) *)
Theorem no_lost_update (id : string) (reqs : list (route * Request)) (s : db)
    (sched : list (nat * bool)) :
  present counter s ∨ (∀ req, (POST_totaldownloads, req) ∉ reqs) →
  faultless sched →
  let c := run_pool (spawn s (handlers reqs)) sched in
  all_finished c →
  count_of id (store c) = count_of id s + total_increments id reqs.
Proof.
  intros Hpre Hsched c Hfin. subst c.
  set (G := λ s' : db, present counter s → present counter s').
  assert (Hstable : ∀ X (op : storage_op X) s', G s' → G (perform op s').2).
  { intros X op s' HG Hs. by apply perform_present, HG. }
  assert (Hall : Forall2 (owes G id) (handlers reqs)
                         ((λ rq, increments id rq.1 rq.2) <$> reqs)).
  { unfold handlers. apply Forall2_fmap, Forall2_same_length_lookup.
    split; [done|]. intros i rq rq' Hi Hi'. assert (rq' = rq) as -> by congruence.
    apply app_owes. intros Hr s' HG. apply HG.
    destruct Hpre as [Hp|Hno]; [done|]. destruct rq as [r req]; cbn in Hr; subst r.
    exfalso. apply (Hno req). by eapply list_elem_of_lookup_2. }
  assert (HG0 : G (store (spawn s (handlers reqs)))) by (by intros ?).
  destruct (run_pool_owes G id Hstable sched (spawn s (handlers reqs)) _ Hsched Hall HG0)
    as (ns & Hns & Hbal).
  rewrite (owes_all_finished G id _ _ Hns Hfin), Zsum_increments in Hbal.
  cbn in Hbal. lia.
Qed.

Lemma no_lost_update_witness :
  let reqs := [(POST_totaldownloads_appId, request_for "hub-mobile");
               (POST_totaldownloads_appId, request_for "hub-mobile");
               (POST_totaldownloads_appId, request_for "hub-mobile")] in
  let sched := [(0, false); (1, false); (2, false); (2, false); (1, false);
                (0, false); (1, false); (0, false); (2, false)]%nat in
  let c := run_pool (spawn db_global_5 (handlers reqs)) sched in
  count_of "hub-mobile" (store c) = 3 ∧ count_of counter (store c) = 8.
Proof.
  intros reqs sched c. split.
  - apply (no_lost_update "hub-mobile" reqs db_global_5 sched).
    + left. vm_compute. eauto.
    + repeat constructor.
    + vm_compute. repeat constructor.
  - apply (no_lost_update counter reqs db_global_5 sched).
    + left. vm_compute. eauto.
    + repeat constructor.
    + vm_compute. repeat constructor.
Defined.

(** [increments] counts the [$inc] calls of a handler that runs without
    faults. *)
Lemma increments_are_calls id (r : route) (req : Request) (s : db) :
  Z.of_nat (length (filter (λ e, is_increment id e = true)
                           (trace (exec (app r req) [] s))))
  = increments id r req.
Proof.
  destruct r; cbn [app increments]; try done.
  - cbn. rewrite !findOneAndUpdate_upsert. cbn.
    repeat case_bool_decide; cbn; repeat case_decide; subst; try done; congruence.
  - cbn. destruct (totalDownload s !! counter) as [c|] eqn:Hc;
      rewrite ?(findOneAndUpdate_present _ _ _ _ _ Hc),
        ?(findOneAndUpdate_absent _ _ _ Hc); cbn;
      repeat case_bool_decide; cbn; repeat case_decide; subst; try done; congruence.
Qed.

(** N track requests for one application owe N to its counter and N to the
    global counter. *)
Lemma total_increments_same_app (a : string) (reqs : list (route * Request)) :
  a ≠ counter →
  Forall (λ rq, rq.1 = POST_totaldownloads_appId ∧ params_appId rq.2 = a) reqs →
  total_increments a reqs = Z.of_nat (length reqs) ∧
  total_increments counter reqs = Z.of_nat (length reqs).
Proof.
  intros Ha. induction 1 as [|[r req] reqs [Hr Hreq] _ [IHa IHc]]; [done|].
  cbn in Hr, Hreq. subst r a.
  unfold total_increments in *. cbn [foldr length fst snd increments].
  rewrite IHa, IHc. repeat case_decide; try done; lia.
Qed.

(** ** Every handler comes to its end *)

Lemma within_inv {A} n (p : prog A) :
  within n p →
  match p with
  | Await op k => ∃ n', n = S n' ∧ ∀ r, within n' (k r)
  | _ => True
  end.
Proof. intros H. destruct H as [n p Hp|X n op k H]; [by destruct p|eauto]. Qed.

(** No handler awaits more than three calls, whatever they give. *)
Lemma app_within (r : route) (req : Request) : within 3 (app r req).
Proof.
  destruct r; cbn [app].
  - apply within_await. intros [?|?]; by apply within_finished.
  - apply within_await. intros [?|?]; by apply within_finished.
  - apply within_await. intros [?|?]; [|by apply within_finished].
    apply within_await. intros [v|?]; [|by apply within_finished].
    apply within_await. intros [?|?]; [|by apply within_finished].
    apply within_finished. by destruct v.
  - apply within_await. intros [?|?]; [|by apply within_finished].
    apply within_await. intros [v|?]; [|by apply within_finished].
    apply within_finished. by destruct v.
  - by apply within_finished.
Qed.

Lemma initializeCounter_within : within 3 initializeCounter.
Proof.
  apply within_await. intros [[d|]|?]; try by apply within_finished.
  apply within_await. intros [?|?]; [|by apply within_finished].
  apply within_await. intros [?|?]; by apply within_finished.
Qed.

Lemma within_0 {A} (p : prog A) : within 0 p → finished p = true.
Proof. intros H. apply within_inv in H. destruct p; try done. by destruct H as (? & ? & _). Qed.

(** A thread that needs at most [n] calls needs [turns] fewer after a
    schedule. *)
Lemma run_pool_within {A} (sched : list (nat * bool)) (c : pool A) (n : nat) :
  Forall (within n) (threads c) →
  ∀ i p, threads (run_pool c sched) !! i = Some p → within (n - turns i sched) p.
Proof.
  revert c.
  induction sched as [|[j f] sched IH] using rev_ind; intros c Hall i p Hp.
  - cbn in *. rewrite Nat.sub_0_r. by eapply Forall_lookup_1.
  - rewrite run_pool_app in Hp. cbn in Hp.
    unfold turns. rewrite filter_app, length_app. fold (turns i sched).
    destruct (threads (run_pool c sched) !! j) as [[a|e|X op k]|] eqn:Hj.
    1,2,4: rewrite step_pool_idle in Hp by (intros q; rewrite Hj; by intros [= <-]);
           specialize (IH c Hall i p Hp);
           apply within_inv in IH; destruct p; try (by apply within_finished);
           destruct IH as (n' & Hn' & Hk);
           destruct (decide (i = j)) as [->|]; [congruence|];
           rewrite filter_cons_False, Nat.add_0_r by done;
           rewrite Hn'; by apply within_await.
    rewrite (step_pool_await _ _ _ _ _ Hj) in Hp. cbn in Hp.
    destruct (decide (i = j)) as [->|Hij].
    + rewrite list_lookup_insert_eq in Hp by (by eapply lookup_lt_Some).
      injection Hp as <-. rewrite filter_cons_True by done. cbn.
      pose proof (IH c Hall j _ Hj) as Hw. apply within_inv in Hw.
      destruct Hw as (n' & Hn' & Hk).
      replace (n - (turns j sched + 1))%nat with n' by lia. apply Hk.
    + rewrite list_lookup_insert_ne in Hp by done.
      rewrite filter_cons_False, Nat.add_0_r by done. by apply (IH c Hall).
Qed.

(** A schedule that gives every thread as many turns as it can need brings
    the whole pool to its end. *)
Lemma fair_run_finishes {A} (n : nat) (ts : list (prog A)) (s : db)
    (sched : list (nat * bool)) :
  Forall (within n) ts →
  (∀ i, (i < length ts)%nat → (n ≤ turns i sched)%nat) →
  all_finished (run_pool (spawn s ts) sched).
Proof.
  intros Hall Hfair. apply Forall_lookup. intros i p Hp. apply within_0.
  pose proof (run_pool_within sched (spawn s ts) n Hall i p Hp) as Hw.
  assert (Hi : (i < length ts)%nat).
  { apply lookup_lt_Some in Hp. by rewrite run_pool_length in Hp. }
  specialize (Hfair i Hi). by replace (n - turns i sched)%nat with 0%nat in Hw by lia.
Qed.

(** X21.  No handler awaits more than three driver calls, whatever they
    give: any schedule that gives each of the requests three turns, with any
    faults, ends them all. *)
Lemma fair_schedule_finishes (reqs : list (route * Request)) (s : db)
    (sched : list (nat * bool)) :
  (∀ i, (i < length reqs)%nat → (3 ≤ turns i sched)%nat) →
  all_finished (run_pool (spawn s (handlers reqs)) sched).
Proof.
  intros Hfair. apply (fair_run_finishes 3).
  - apply Forall_fmap, Forall_forall. intros [r req] _. apply app_within.
  - intros i Hi. apply Hfair. unfold handlers in Hi. by rewrite length_fmap in Hi.
Qed.

(** Three turns each end any race of initialization attempts. *)
Lemma fair_race_finishes (n : nat) (s : db) (sched : list (nat * bool)) :
  (∀ i, (i < n)%nat → (3 ≤ turns i sched)%nat) →
  all_finished (run_pool (spawn s (replicate n initializeCounter)) sched).
Proof.
  intros Hfair. apply (fair_run_finishes 3).
  - apply Forall_replicate, initializeCounter_within.
  - intros i Hi. apply Hfair. by rewrite length_replicate in Hi.
Qed.

(** A thread scheduled alone does what [exec] says. *)
Lemma run_pool_finished {A} (c : pool A) (sched : list (nat * bool)) :
  all_finished c → run_pool c sched = c.
Proof.
  intros Hfin. induction sched as [|[i f] sched IH]; [done|].
  rewrite run_pool_cons, step_pool_idle; [done|].
  intros p Hp. exact (Forall_lookup_1 _ _ _ _ Hfin Hp).
Qed.

Lemma solo_run {A} (n : nat) (p : prog A) (faults : list bool) (s : db)
    (h : list (nat * event)) :
  within n p →
  let o := exec p faults s in
  run_pool {| store := s; threads := [p]; history := h |} (solo n faults)
  = {| store := final o; threads := [settled (result o)];
       history := h ++ ((λ e, (0%nat, e)) <$> trace o) |}.
Proof.
  revert p faults s h. induction n as [|n IH]; intros p faults s h Hw.
  - apply within_0 in Hw. destruct p; [| |done]; cbn; by rewrite app_nil_r.
  - destruct p as [a|e|X op k].
    1,2: rewrite run_pool_finished by (by repeat constructor);
         cbn; by rewrite app_nil_r.
    apply within_inv in Hw as (n' & [= <-] & Hk).
    cbn [solo]. rewrite run_pool_cons.
    rewrite (step_pool_await _ 0 _ op k) by done. cbn [store threads history].
    change (<[0%nat := ?x]> [Await op k]) with [x].
    rewrite (IH _ (tl faults) _ _ (Hk _)). cbn [exec result final trace].
    by rewrite <- app_assoc.
Qed.


(** ** Racing initializations *)

Lemma attempting_inv {A} s0 (p : prog A) :
  attempting s0 p →
  match p with
  | Await op k =>
      seeding_call s0 op ∧
      (∀ fault s, seeded s0 s → attempting s0 (k (call op fault s).1)) ∧
      (∀ s, seeded s0 s → finished (k (perform op s).1) = true →
            present counter (perform op s).2)
  | _ => True
  end.
Proof. intros H. destruct H as [p Hp|X op k H1 H2 H3]; [by destruct p|done]. Qed.

Lemma raced_seeded {A} s0 (c : pool A) : raced s0 c → seeded s0 (store c).
Proof. intros [Hlog [[Hm _]|(Habs & Hm & _)]]; split; auto. Qed.

Lemma creations_snoc (h : list (nat * event)) i e :
  creations (h ++ [(i, e)]) = (creations h + (if is_creation e then 1 else 0))%nat.
Proof.
  unfold creations. rewrite filter_app, length_app. f_equal.
  destruct (is_creation e) eqn:He.
  - by rewrite filter_cons_True.
  - rewrite filter_cons_False; [done|]. cbn. by rewrite He.
Qed.

(** One step of a race: a call that is no insertion changes nothing, and an
    insertion creates the global counter only if it does not exist. *)
Lemma step_pool_raced {A} s0 (c : pool A) i fault :
  Forall (attempting s0) (threads c) → raced s0 c →
  Forall (attempting s0) (threads (step_pool c i fault)) ∧
  raced s0 (step_pool c i fault).
Proof.
  intros Hall Hraced.
  destruct (threads c !! i) as [[a|e|X op k]|] eqn:Hi.
  1,2,4: by idle Hi.
  rewrite (step_pool_await _ _ _ _ _ Hi).
  pose proof (Forall_lookup_1 _ _ _ _ Hall Hi) as Hp.
  apply attempting_inv in Hp as (Hop & Hk & _).
  split.
  - cbn. apply Forall_insert; [done|]. apply Hk. by apply raced_seeded.
  - destruct Hraced as [Hlog Hcases]. unfold raced. cbn [store history].
    rewrite creations_snoc. unfold call.
    destruct op; cbn in Hop; try done;
      destruct fault; cbn; rewrite ?Nat.add_0_r; try done.
    subst d. cbn.
    destruct (totalDownload (store c) !! counter) as [v|] eqn:Hv; cbn.
    { by rewrite Nat.add_0_r. }
    split; [done|]. right.
    destruct Hcases as [[Hm Hn]|(_ & Hm & _)].
    + rewrite Hn, <- Hm. done.
    + rewrite Hm, lookup_insert_eq in Hv. discriminate.
Qed.

(** Without faults, a thread of the race that is done has seen the global
    counter, or made it. *)
Lemma step_pool_arrived {A} s0 (c : pool A) i :
  Forall (attempting s0) (threads c) → raced s0 c →
  Forall (λ p, finished p = true → present counter (store c)) (threads c) →
  Forall (λ p, finished p = true → present counter (store (step_pool c i false)))
         (threads (step_pool c i false)).
Proof.
  intros Hall Hraced Harr.
  destruct (threads c !! i) as [[a|e|X op k]|] eqn:Hi.
  1,2,4: by idle Hi.
  rewrite (step_pool_await _ _ _ _ _ Hi). cbn.
  pose proof (Forall_lookup_1 _ _ _ _ Hall Hi) as Hp.
  apply attempting_inv in Hp as (_ & _ & Hfin).
  apply Forall_insert.
  - eapply Forall_impl; [exact Harr|]. intros p Hp Hf. by apply perform_present, Hp.
  - apply Hfin. by apply raced_seeded.
Qed.

Lemma run_pool_raced {A} s0 (sched : list (nat * bool)) (c : pool A) :
  Forall (attempting s0) (threads c) → raced s0 c →
  Forall (attempting s0) (threads (run_pool c sched)) ∧
  raced s0 (run_pool c sched) ∧
  (faultless sched →
   Forall (λ p, finished p = true → present counter (store c)) (threads c) →
   Forall (λ p, finished p = true → present counter (store (run_pool c sched)))
          (threads (run_pool c sched))).
Proof.
  revert c. induction sched as [|[i f] sched IH]; intros c Hall Hraced; [done|].
  rewrite run_pool_cons.
  destruct (step_pool_raced s0 c i f Hall Hraced) as [Hall' Hraced'].
  destruct (IH _ Hall' Hraced') as (Hall'' & Hraced'' & Harr).
  split; [done|]. split; [done|].
  intros [Hf Hs]%Forall_cons Hc. cbn in Hf. subst f.
  apply Harr; [done|]. by apply (step_pool_arrived s0).
Qed.

Lemma initializeCounter_attempting (s0 : db) : attempting s0 initializeCounter.
Proof.
  unfold initializeCounter.
  apply attempting_await; [done| |].
  - intros [] s Hs; cbn; [by apply attempting_finished|].
    destruct (totalDownload s !! counter) as [v|]; cbn; [by apply attempting_finished|].
    apply attempting_await; [done| |].
    + intros [] s1 [Hlog1 _]; cbn; [by apply attempting_finished|].
      apply attempting_await; [by rewrite Hlog1| |].
      * intros [] s2 _; cbn; [by apply attempting_finished|].
        destruct (totalDownload s2 !! counter); by apply attempting_finished.
      * intros s2 _ _. cbn. unfold present.
        destruct (totalDownload s2 !! counter) as [v|] eqn:Hv; cbn;
          [by rewrite Hv|by rewrite lookup_insert_eq].
    + intros s1 _. cbn. discriminate.
  - intros s _. cbn. unfold present.
    destruct (totalDownload s !! counter) as [v|] eqn:Hv; cbn; [by eauto|discriminate].
Qed.

Lemma connectToDatabase_attempting (s0 : db) : attempting s0 (connectToDatabase false).
Proof.
  unfold connectToDatabase.
  apply attempting_await; [done| |]; [|intros s _; cbn; discriminate].
  intros [] s0' _; cbn; [by apply attempting_finished|].
  apply attempting_await; [done| |].
  - intros [] s Hs; cbn; [by apply attempting_finished|].
    destruct (totalDownload s !! counter) as [v|]; cbn; [by apply attempting_finished|].
    apply attempting_await; [done| |].
    + intros [] s1 [Hlog1 _]; cbn; [by apply attempting_finished|].
      apply attempting_await; [by rewrite Hlog1| |].
      * intros [] s2 _; cbn; [by apply attempting_finished|].
        destruct (totalDownload s2 !! counter); by apply attempting_finished.
      * intros s2 _ _. cbn. unfold present.
        destruct (totalDownload s2 !! counter) as [v|] eqn:Hv; cbn;
          [by rewrite Hv|by rewrite lookup_insert_eq].
    + intros s1 _. cbn. discriminate.
  - intros s _. cbn. unfold present.
    destruct (totalDownload s !! counter) as [v|] eqn:Hv; cbn; [by eauto|discriminate].
Qed.

(** The outcome of a race of [n] copies of one attempt. *)
Lemma race_outcome {A} (attempt : prog A) (n : nat) (s : db) (sched : list (nat * bool)) :
  attempting s attempt → finished attempt = false →
  let c := run_pool (spawn s (replicate n attempt)) sched in
  raced s c ∧
  (faultless sched → all_finished c → n ≠ 0%nat → present counter (store c)).
Proof.
  intros Hatt Hnot c.
  destruct (run_pool_raced s sched (spawn s (replicate n attempt)))
    as (_ & Hraced & Harr).
  { by apply Forall_replicate. }
  { split; [done|]. by left. }
  split; [done|]. intros Hsched Hfin Hn.
  assert (Harr0 : Forall (λ p, finished p = true → present counter s)
                         (replicate n attempt)).
  { apply Forall_replicate. intros Hf. congruence. }
  specialize (Harr Hsched Harr0). fold c in Harr.
  destruct (threads c) as [|p ts] eqn:Hts.
  - exfalso. apply Hn.
    assert (Hlen : length (threads c) = n).
    { subst c. rewrite run_pool_length. cbn. apply length_replicate. }
    by rewrite Hts in Hlen.
  - unfold all_finished in Hfin. rewrite Hts in Hfin.
    apply Forall_cons in Hfin as [Hp _]. apply Forall_cons in Harr as [Hp' _].
    exact (Hp' Hp).
Qed.

(** C4.  Let any number of [initializeCounter] attempts race, their calls
    interleaved in any order, any of them failing.  The event log is not
    touched, and the counter store is changed by at most one creation: either
    nothing was inserted and the store is as it was, or the global counter was
    missing and one insertion, the only one fulfilled, created it with the
    size of the event log.  So a global counter that exists is never
    overwritten, and a missing one is never seeded twice.  When the counter
    is missing, no call fails and all the attempts are done, exactly one
    creation has taken effect and the counter holds the size of the event
    log, whatever the interleaving was.  What decides the race is the
    insertion itself, which the store refuses for an _id that exists; the
    attempts that lose it end with that refusal. *)
Theorem racing_initialization (n : nat) (s : db) (sched : list (nat * bool)) :
  let K := Z.of_nat (length (downloadInfo s)) in
  let c := run_pool (spawn s (replicate n initializeCounter)) sched in
  downloadInfo (store c) = downloadInfo s ∧
  ((totalDownload (store c) = totalDownload s ∧ creations (history c) = 0%nat) ∨
   (totalDownload s !! counter = None ∧
    totalDownload (store c) = <[counter := K]> (totalDownload s) ∧
    creations (history c) = 1%nat)) ∧
  (∀ v, totalDownload s !! counter = Some v →
        totalDownload (store c) = totalDownload s ∧ creations (history c) = 0%nat) ∧
  (totalDownload s !! counter = None →
   faultless sched → all_finished c → n ≠ 0%nat →
   totalDownload (store c) = <[counter := K]> (totalDownload s) ∧
   count_of counter (store c) = K ∧
   creations (history c) = 1%nat).
Proof.
  intros K c.
  destruct (race_outcome initializeCounter n s sched
              (initializeCounter_attempting s) eq_refl) as [[Hlog Hcases] Hdone].
  fold c in Hlog, Hcases, Hdone.
  split; [done|]. split; [done|]. split.
  - intros v Hv. destruct Hcases as [?|(Habs & _)]; [done|congruence].
  - intros Habs Hsched Hfin Hn.
    destruct (Hdone Hsched Hfin Hn) as [v Hv].
    destruct Hcases as [[Hm _]|(_ & Hm & Hone)].
    + rewrite Hm in Hv. congruence.
    + split; [done|]. split; [|done].
      unfold count_of. by rewrite Hm, lookup_insert_eq.
Qed.

Lemma racing_initialization_witness :
  let sched := [(0, false); (1, false); (1, false); (0, false); (2, false);
                (0, false); (1, false); (2, false); (2, false)]%nat in
  let c := run_pool (spawn db_without_global (replicate 3 initializeCounter)) sched in
  count_of counter (store c) = 1 ∧ creations (history c) = 1%nat.
Proof.
  intros sched c.
  destruct (racing_initialization 3 db_without_global sched) as (_ & _ & _ & Hrace).
  destruct Hrace as (_ & Hcount & Hone).
  - vm_compute. reflexivity.
  - subst sched. repeat constructor.
  - vm_compute. repeat constructor.
  - discriminate.
  - split; [exact Hcount|exact Hone].
Defined.

(** X20.  The same race between calls of [connectToDatabase] that found
    [isConnected] false, as when the module is loading while the first
    requests arrive: the log is untouched, at most one insertion is
    fulfilled, a global counter that exists is not changed, and a missing one
    is, once all the calls are done without faults, created once with the
    size of the event log. *)
Lemma racing_connectToDatabase (n : nat) (s : db) (sched : list (nat * bool)) :
  let K := Z.of_nat (length (downloadInfo s)) in
  let c := run_pool (spawn s (replicate n (connectToDatabase false))) sched in
  raced s c ∧
  (totalDownload s !! counter = None →
   faultless sched → all_finished c → n ≠ 0%nat →
   totalDownload (store c) = <[counter := K]> (totalDownload s) ∧
   creations (history c) = 1%nat).
Proof.
  intros K c.
  destruct (race_outcome (connectToDatabase false) n s sched
              (connectToDatabase_attempting s) eq_refl) as [Hraced Hdone].
  fold c in Hraced, Hdone. split; [done|].
  intros Habs Hsched Hfin Hn.
  destruct (Hdone Hsched Hfin Hn) as [v Hv].
  destruct Hraced as [_ [[Hm _]|(_ & Hm & Hone)]]; [|done].
  rewrite Hm in Hv. congruence.
Qed.

(** The attempt that loses the race ends with the refusal of its insertion:
    [initializeCounter] throws, and so [run()] never registers the routes of
    that instance. *)
Lemma losing_attempt_throws :
  let c := run_pool (spawn empty_db [initializeCounter; initializeCounter])
             [(0, false); (1, false); (0, false); (1, false); (0, false); (1, false)]%nat in
  threads c = [Ret (); Throw (DuplicateKey counter)] ∧
  totalDownload (store c) = {[ counter := 0 ]}.
Proof. vm_compute. split; reflexivity. Qed.

(** * More properties *)

(** ** What every driver call keeps *)

(** No call removes or lowers a counter. *)
Lemma call_counter_mono {X} (op : storage_op X) (fault : bool) (s : db) id c :
  totalDownload s !! id = Some c →
  ∃ c', totalDownload (call op fault s).2 !! id = Some c' ∧ c ≤ c'.
Proof.
  intros Hc. unfold call. destruct fault; [by exists c|].
  destruct op; cbn; try (by exists c).
  - destruct (totalDownload s !! _id d) as [v|] eqn:Hv; cbn; [by exists c|].
    exists c. split; [|done]. rewrite lookup_insert_ne; [done|]. congruence.
  - unfold findOneAndUpdate.
    destruct (totalDownload s !! id0) as [v|] eqn:Hv; [|destruct upsert]; cbn.
    + rewrite lookup_insert. case_decide; [|by exists c].
      subst. exists (v + 1). split; [done|]. assert (v = c) by congruence. lia.
    + rewrite lookup_insert_ne by congruence. by exists c.
    + by exists c.
Qed.

(** No call removes or changes a download record. *)
Lemma call_log_grows {X} (op : storage_op X) (fault : bool) (s : db) :
  downloadInfo s `prefix_of` downloadInfo (call op fault s).2.
Proof.
  unfold call. destruct fault; [done|].
  destruct op; cbn; try done.
  - by apply prefix_app_r.
  - by destruct (totalDownload s !! _id d).
Qed.

Lemma exec_counter_mono {A} (p : prog A) (faults : list bool) (s : db) id c :
  totalDownload s !! id = Some c →
  ∃ c', totalDownload (final (exec p faults s)) !! id = Some c' ∧ c ≤ c'.
Proof.
  revert faults s c. induction p as [a|e|X op k IH]; intros faults s c Hc;
    [by exists c..|].
  cbn. destruct (call_counter_mono op (hd false faults) s id c Hc) as (c1 & Hc1 & Hle).
  destruct (IH (call op (hd false faults) s).1 (tl faults) _ c1 Hc1)
    as (c2 & Hc2 & Hle2).
  exists c2. split; [done|]. lia.
Qed.

Lemma exec_log_grows {A} (p : prog A) (faults : list bool) (s : db) :
  downloadInfo s `prefix_of` downloadInfo (final (exec p faults s)).
Proof.
  revert faults s. induction p as [a|e|X op k IH]; intros faults s; [done..|].
  cbn. etrans; [apply (call_log_grows op (hd false faults))|apply IH].
Qed.

Lemma act_counter_mono (a : action) (faults : list bool) (s : db) id c :
  totalDownload s !! id = Some c →
  ∃ c', totalDownload (act a faults s) !! id = Some c' ∧ c ≤ c'.
Proof. destruct a; apply exec_counter_mono. Qed.

Lemma after_counter_mono (acts : list (action * list bool)) (s : db) id c :
  totalDownload s !! id = Some c →
  ∃ c', totalDownload (after acts s) !! id = Some c' ∧ c ≤ c'.
Proof.
  revert s c. induction acts as [|[a faults] acts IH]; intros s c Hc; [by exists c|].
  destruct (act_counter_mono a faults s id c Hc) as (c1 & Hc1 & Hle).
  destruct (IH _ c1 Hc1) as (c2 & Hc2 & Hle2).
  exists c2. split; [exact Hc2|lia].
Qed.

(** X1.  Counters are never deleted and never go down: a counter that exists
    still exists, with a count at least as large, after any sequence of
    startups and requests, whatever calls fail. *)
Theorem counters_never_decrease (acts : list (action * list bool)) (s : db)
    (id : string) (c : Z) :
  totalDownload s !! id = Some c →
  ∃ c', totalDownload (after acts s) !! id = Some c' ∧ c ≤ c'.
Proof. apply after_counter_mono. Qed.

Lemma counters_never_decrease_witness :
  ∃ c', totalDownload
          (after [(Handle POST_totaldownloads (request_for ""), [false; true]);
                  (Handle POST_totaldownloads_appId (request_for "hub-mobile"), [])]
                 db_global_5) !! counter = Some c' ∧ 5 ≤ c'.
Proof.
  apply (counters_never_decrease _ db_global_5 counter 5). vm_compute. reflexivity.
Defined.

Lemma act_log_bound (a : action) (faults : list bool) (s : db) :
  (length (downloadInfo (act a faults s)) ≤ S (length (downloadInfo s)))%nat.
Proof.
  destruct a as [|[] req]; cbn [act app].
  - unfold initializeCounter.
    destruct (totalDownload s !! counter) as [c|] eqn:Hc;
      destruct faults as [|[] [|[] [|[] faults]]]; cbn; rewrite ?Hc; cbn;
      rewrite ?Hc; cbn; lia.
  - rewrite get_all_reads_only. lia.
  - rewrite get_app_reads_only. lia.
  - unfold post_totaldownloads_appId.
    destruct faults as [|[] [|[] [|[] faults]]]; cbn;
      rewrite ?findOneAndUpdate_upsert; cbn; rewrite ?length_app; cbn; lia.
  - unfold post_totaldownloads.
    destruct (totalDownload s !! counter) as [c|] eqn:Hc;
      destruct faults as [|[] [|[] faults]]; cbn;
      rewrite ?(findOneAndUpdate_present _ _ _ _ _ Hc),
        ?(findOneAndUpdate_absent _ _ _ Hc); cbn; rewrite ?length_app; cbn; lia.
  - cbn. lia.
Qed.

(** X2.  The event log is append-only: after any sequence of startups and
    requests, with any failing calls, the log starts with the records it held
    before, unchanged and in their order, and it has gained at most one
    record per action. *)
Theorem log_append_only (acts : list (action * list bool)) (s : db) :
  downloadInfo s `prefix_of` downloadInfo (after acts s) ∧
  (length (downloadInfo (after acts s)) ≤ length (downloadInfo s) + length acts)%nat.
Proof.
  revert s. induction acts as [|[a faults] acts IH]; intros s.
  - split; [done|cbn; lia].
  - destruct (IH (act a faults s)) as [Hpre Hlen].
    change (after ((a, faults) :: acts) s) with (after acts (act a faults s)).
    split.
    + etrans; [|exact Hpre]. destruct a; apply exec_log_grows.
    + pose proof (act_log_bound a faults s). cbn [length]. lia.
Qed.

(** ** Reads *)

(** X3.  The three GET routes never write: whatever the request and whatever
    calls fail, the database after the handler is the database before it. *)
Theorem reads_never_write (r : route) (req : Request) (faults : list bool) (s : db) :
  is_track r = false →
  final (exec (app r req) faults s) = s.
Proof.
  destruct r; try discriminate; intros _; cbn [app].
  - apply get_all_reads_only.
  - apply get_app_reads_only.
  - done.
Qed.

Lemma reads_never_write_witness :
  final (exec (app GET_totaldownloads (request_for "")) [] db_without_global)
  = db_without_global.
Proof. apply reads_never_write. reflexivity. Defined.

(** X4.  The two read routes agree on every id that the mapping can list.
    The mapping of GET /totaldownloads never lists two ids: the reserved id
    "counter", which the query leaves out, and "__proto__", which the
    assignment to the response object does not store.  For these two, GET
    /totaldownloads/:appId still answers the count of their counter
    document.  For every other id it answers the count that the mapping
    holds for it, and 0 when the mapping has no entry. *)
Theorem read_routes_agree (req req' : Request) (s : db) (m : gmap string Z) :
  counts_of (exec (get_totaldownloads req') [] s) = Some m →
  let a := params_appId req in
  response_of (exec (get_totaldownloads_appId req) [] s)
  = Some {| status := 200;
            body := JCount (if decide (a = counter ∨ a = proto)
                            then count_of a s
                            else default 0 (m !! a)) |} ∧
  (a = counter ∨ a = proto → m !! a = None).
Proof.
  intros Hm a. rewrite (get_all_counts _ _ _ _ Hm).
  unfold response_of, count_of. cbn. fold a. split.
  - case_decide; by destruct (totalDownload s !! a).
  - intros Ha. by rewrite decide_True.
Qed.

Lemma read_routes_agree_witness :
  response_of (exec (get_totaldownloads_appId (request_for "hub-mobile")) []
                    db_without_global)
  = Some {| status := 200; body := JCount 3 |}.
Proof.
  assert (Hm : counts_of (exec (get_totaldownloads (request_for "")) [] db_without_global)
               = Some {[ "hub-mobile" := 3 ]}) by (vm_compute; reflexivity).
  destruct (read_routes_agree (request_for "hub-mobile") _ _ _ Hm) as [Hresp _].
  rewrite Hresp. vm_compute. reflexivity.
Defined.

(** X5.  GET /totaldownloads of the first version of the server answers the
    count of the global counter, 0 if it does not exist, and the version with
    per-application counters still serves exactly that answer, with the same
    calls and the same failures, at GET /totaldownloads/counter. *)
Theorem global_count_still_served (req req' : Request) (faults : list bool) (s : db) :
  params_appId req' = counter →
  exec (get_totaldownloads_appId req') faults s = exec (get_totaldownloads_v1 req) faults s ∧
  response_of (exec (get_totaldownloads_v1 req) [] s)
  = Some {| status := 200; body := JCount (count_of counter s) |}.
Proof.
  intros Ha. split.
  - unfold get_totaldownloads_appId, get_totaldownloads_v1. by rewrite Ha.
  - unfold response_of, count_of. cbn. by destruct (totalDownload s !! counter).
Qed.

Lemma global_count_still_served_witness :
  response_of (exec (get_totaldownloads_appId (request_for counter)) [] db_global_5)
  = Some {| status := 200; body := JCount 5 |}.
Proof.
  destruct (global_count_still_served (request_for "") (request_for counter) []
              db_global_5 eq_refl) as [Hsame Hresp].
  rewrite Hsame. exact Hresp.
Defined.

(** ** Responses *)

(** X6.  A handler always answers, whatever calls fail: no exception leaves
    it.  The answer is 200, and then no call was rejected, or it is 500 with
    the message of the route; and a 500 has one of two causes only, a
    rejected call, or, for POST /totaldownloads, a global counter that does
    not exist. *)
Theorem handlers_always_respond (r : route) (req : Request) (faults : list bool)
    (s : db) :
  let o := exec (app r req) faults s in
  ∃ resp, result o = inl resp ∧
    ((status resp = 200%nat ∧ storage_failed o = false) ∨
     (status resp = 500%nat ∧ body resp = JError (failure_message r) ∧
      (storage_failed o = true ∨
       (r = POST_totaldownloads ∧ totalDownload s !! counter = None)))).
Proof.
  intros o. subst o. unfold storage_failed.
  destruct r; cbn [app failure_message].
  - destruct faults as [|[] ?]; cbn; eexists; (split; [done|]); auto.
  - destruct faults as [|[] ?]; cbn; eexists; (split; [done|]); auto.
  - unfold post_totaldownloads_appId.
    destruct faults as [|[] [|[] [|[] faults]]]; cbn;
      rewrite ?findOneAndUpdate_upsert; cbn; eexists; (split; [done|]); auto.
  - unfold post_totaldownloads.
    destruct (totalDownload s !! counter) as [c|] eqn:Hc;
      destruct faults as [|[] [|[] faults]]; cbn;
      rewrite ?(findOneAndUpdate_present _ _ _ _ _ Hc),
        ?(findOneAndUpdate_absent _ _ _ Hc); cbn;
      eexists; (split; [done|]); auto 6.
  - cbn. eexists. split; [done|]. auto.
Qed.

(** ** Track, then read *)

(** X7.  What a track request answers is what the reads answer next.  After
    a POST /totaldownloads/:appId without faults for an id other than the
    reserved one, which answers the old count plus one, GET
    /totaldownloads/:appId answers that same count, and the mapping of GET
    /totaldownloads holds it under the id, unless the id is "__proto__",
    which the mapping never lists. *)
Theorem track_then_read (req req' : Request) (s : db) :
  params_appId req ≠ counter →
  params_appId req' = params_appId req →
  let a := params_appId req in
  let n := count_of a s + 1 in
  let o := exec (post_totaldownloads_appId req) [] s in
  response_of o = Some {| status := 200;
                          body := JTracked true n "Download tracked successfully" |} ∧
  response_of (exec (get_totaldownloads_appId req') [] (final o))
  = Some {| status := 200; body := JCount n |} ∧
  ∀ m, counts_of (exec (get_totaldownloads req') [] (final o)) = Some m →
       m !! a = if decide (a = proto) then None else Some n.
Proof.
  intros Ha Hreq' a n o.
  assert (Hfinal : totalDownload (final o) !! a = Some n).
  { subst o. unfold post_totaldownloads_appId. cbn.
    rewrite !findOneAndUpdate_upsert. cbn.
    rewrite lookup_insert_ne by done. by rewrite lookup_insert_eq. }
  split; [|clearbody o; split].
  - subst o. unfold response_of, post_totaldownloads_appId. cbn.
    by rewrite !findOneAndUpdate_upsert.
  - unfold response_of, get_totaldownloads_appId. cbn. rewrite Hreq'.
    fold a. by rewrite Hfinal.
  - intros m Hm. rewrite (get_all_counts _ _ _ _ Hm).
    destruct (decide (a = proto)) as [Hp|Hp].
    + by rewrite decide_True by (by right).
    + rewrite decide_False by (by intros [?|?]). exact Hfinal.
Qed.

Lemma track_then_read_witness :
  let o := exec (post_totaldownloads_appId (request_for "hub-mobile")) [] db_without_global in
  response_of (exec (get_totaldownloads_appId (request_for "hub-mobile")) [] (final o))
  = Some {| status := 200; body := JCount 4 |} ∧
  counts_of (exec (get_totaldownloads (request_for "hub-mobile")) []
                  (final (exec (post_totaldownloads_appId (request_for proto)) []
                               db_without_global)))
  = Some {[ "hub-mobile" := 3 ]}.
Proof.
  intros o. split.
  - destruct (track_then_read (request_for "hub-mobile") (request_for "hub-mobile")
                db_without_global) as (_ & Hread & _).
    + vm_compute. discriminate.
    + reflexivity.
    + exact Hread.
  - vm_compute. reflexivity.
Defined.

(** ** Startup *)

Lemma run_outcome (faults : list bool) (s : db) :
  let o := exec run faults s in
  (result o = inl all_routes ∧ storage_failed o = false ∧
   present counter (final o) ∧ final o = final (exec initializeCounter [] s)) ∨
  (result o = inl [] ∧ storage_failed o = true ∧ final o = s).
Proof.
  unfold run, initializeCounter, storage_failed, present.
  destruct (totalDownload s !! counter) as [c|] eqn:Hc;
    destruct faults as [|[] [|[] [|[] faults]]]; cbn; rewrite ?Hc; cbn;
    rewrite ?Hc; cbn; rewrite ?lookup_insert_eq; auto 8.
Qed.

(** X8.  [run()] never throws, and it registers the routes only after the
    global counter is in place.  Either every call of [initializeCounter] was
    fulfilled: then all five routes are registered, the global counter
    exists, and the database is the one a fault-free [initializeCounter]
    leaves.  Or a call was rejected: then the database is untouched and no
    route is registered, so that no request is ever handled. *)
Theorem run_registers_after_seeding (faults : list bool) (s : db) :
  let o := exec run faults s in
  ∃ routes, result o = inl routes ∧
    ((routes = all_routes ∧ storage_failed o = false ∧
      present counter (final o) ∧ final o = final (exec initializeCounter [] s)) ∨
     (routes = [] ∧ storage_failed o = true ∧ final o = s ∧
      ∀ r req, dispatch routes r req = None)).
Proof.
  intros o. destruct (run_outcome faults s) as [(Hr & ?)|(Hr & ? & ?)]; fold o in Hr.
  - exists all_routes. split; [done|]. by left.
  - exists []. split; [done|]. right.
    split; [done|]. split; [done|]. split; [done|].
    intros r req. unfold dispatch. case_decide as Hin; [|done].
    by apply elem_of_nil in Hin.
Qed.

Lemma post_global_present (req : Request) (s : db) (c : Z) :
  totalDownload s !! counter = Some c →
  response_of (exec (post_totaldownloads req) [] s)
  = Some {| status := 200;
            body := JTracked true (c + 1) "Download tracked successfully" |}.
Proof.
  intros Hc. unfold response_of, post_totaldownloads. cbn.
  by rewrite (findOneAndUpdate_present _ _ _ _ _ Hc).
Qed.

(** X9.  Once [run()] has registered POST /totaldownloads, that route cannot
    meet a missing global counter: after any sequence of startups and
    requests on the same database, whatever calls failed in them, a POST
    /totaldownloads whose own calls are fulfilled answers 200 with the global
    count plus one. *)
Theorem registered_post_succeeds (faults : list bool) (s : db) (routes : list route)
    (acts : list (action * list bool)) (req : Request) (p : prog Response) :
  result (exec run faults s) = inl routes →
  dispatch routes POST_totaldownloads req = Some p →
  let s' := after acts (final (exec run faults s)) in
  response_of (exec p [] s')
  = Some {| status := 200;
            body := JTracked true (count_of counter s' + 1)
                             "Download tracked successfully" |}.
Proof.
  intros Hroutes Hp s'.
  unfold dispatch in Hp. case_decide as Hin; [|done]. injection Hp as <-.
  destruct (run_outcome faults s) as [(_ & _ & [c Hc] & _)|(Hr & _)].
  - destruct (after_counter_mono acts _ counter c Hc) as (c' & Hc' & _).
    fold s' in Hc'. cbn [app].
    rewrite (post_global_present req s' c' Hc').
    unfold count_of. by rewrite Hc'.
  - rewrite Hr in Hroutes. injection Hroutes as <-. by apply elem_of_nil in Hin.
Qed.

Lemma registered_post_succeeds_witness :
  let s' := after [(Handle POST_totaldownloads_appId (request_for "hub-mobile"), [false; true])]
                  (final (exec run [] db_without_global)) in
  response_of (exec (app POST_totaldownloads (request_for "")) [] s')
  = Some {| status := 200;
            body := JTracked true 2 "Download tracked successfully" |}.
Proof.
  intros s'.
  assert (Hrun : result (exec run [] db_without_global) = inl all_routes)
    by (vm_compute; reflexivity).
  assert (Hroute : dispatch all_routes POST_totaldownloads (request_for "")
                   = Some (app POST_totaldownloads (request_for "")))
    by (vm_compute; reflexivity).
  pose proof (registered_post_succeeds [] db_without_global all_routes
                [(Handle POST_totaldownloads_appId (request_for "hub-mobile"),
                  [false; true])]
                (request_for "") _ Hrun Hroute) as Hpost.
  cbv zeta in Hpost. fold s' in Hpost. rewrite Hpost.
  vm_compute. reflexivity.
Defined.

(** ** The records *)

Lemma or_string_not_empty (a : option string) :
  default "Unknown" (or_string a None) ≠ "".
Proof.
  unfold or_string. destruct a as [u|]; [|done].
  case_decide; [done|]. done.
Qed.

(** What an action adds to the event log: nothing, or the one record of the
    request. *)
Lemma act_log_cases (a : action) (faults : list bool) (s : db) :
  downloadInfo (act a faults s) = downloadInfo s ∨
  ∃ req, (a = Handle POST_totaldownloads_appId req ∧
          downloadInfo (act a faults s)
          = downloadInfo s ++ [download_record (Some (params_appId req)) req]) ∨
         (a = Handle POST_totaldownloads req ∧
          downloadInfo (act a faults s)
          = downloadInfo s ++ [download_record None req]).
Proof.
  destruct a as [|[] req]; cbn [act app].
  - left. unfold initializeCounter.
    destruct (totalDownload s !! counter) as [c|] eqn:Hc;
      destruct faults as [|[] [|[] [|[] faults]]]; cbn; rewrite ?Hc; cbn;
      by rewrite ?Hc.
  - left. by rewrite get_all_reads_only.
  - left. by rewrite get_app_reads_only.
  - unfold post_totaldownloads_appId.
    destruct faults as [|[] [|[] [|[] faults]]]; cbn;
      rewrite ?findOneAndUpdate_upsert; cbn; eauto.
  - unfold post_totaldownloads.
    destruct (totalDownload s !! counter) as [c|] eqn:Hc;
      destruct faults as [|[] [|[] faults]]; cbn;
      rewrite ?(findOneAndUpdate_present _ _ _ _ _ Hc),
        ?(findOneAndUpdate_absent _ _ _ Hc); cbn; eauto.
  - by left.
Qed.

(** X10.  The server never stores an empty userAgent: a missing or empty
    userAgent in the body is stored as "Unknown".  If no record of the event
    log has an empty userAgent, none has after any sequence of startups and
    requests. *)
Theorem stored_userAgent_never_empty (acts : list (action * list bool)) (s : db) :
  Forall (λ r, userAgent r ≠ "") (downloadInfo s) →
  Forall (λ r, userAgent r ≠ "") (downloadInfo (after acts s)).
Proof.
  revert s. induction acts as [|[a faults] acts IH]; intros s Hs; [done|].
  change (after ((a, faults) :: acts) s) with (after acts (act a faults s)).
  apply IH.
  destruct (act_log_cases a faults s) as [->|(req & [[_ ->]|[_ ->]])]; [done|..];
    (apply Forall_app; split; [done|]); repeat constructor;
    apply or_string_not_empty.
Qed.

Lemma stored_userAgent_never_empty_witness :
  Forall (λ r, userAgent r ≠ "")
    (downloadInfo
       (after [(Handle POST_totaldownloads
                  {| params_appId := ""; body_userAgent := Some ""; req_ip := None;
                     remoteAddress := None; date_now := 1 |}, [])]
              db_without_global)).
Proof.
  apply stored_userAgent_never_empty. repeat constructor. vm_compute. discriminate.
Defined.

(** ** Counters and log under concurrency *)

Lemma credited_inv {A} μ (p : prog A) c :
  credited μ p c →
  0 ≤ c ∧
  match p with
  | Await op k =>
      ∀ fault s,
        credited μ (k (call op fault s).1) (c + (μ (call op fault s).2 - μ s))
  | _ => True
  end.
Proof.
  intros H. destruct H as [p c Hp Hc|X op k c Hc H]; [|done].
  split; [done|]. by destruct p.
Qed.

Lemma credited_eq {A} μ (p : prog A) c c' :
  credited μ p c → c' = c → credited μ p c'.
Proof. by intros H ->. Qed.

Lemma step_pool_credited {A} μ (c : pool A) i fault (cs : list Z) :
  Forall2 (credited μ) (threads c) cs →
  ∃ cs', Forall2 (credited μ) (threads (step_pool c i fault)) cs' ∧
         μ (store (step_pool c i fault)) - Zsum cs' = μ (store c) - Zsum cs.
Proof.
  intros Hall.
  destruct (threads c !! i) as [[a|e|X op k]|] eqn:Hi.
  1,2,4: idle Hi; by exists cs.
  rewrite (step_pool_await _ _ _ _ _ Hi). cbn [store threads].
  destruct (Forall2_lookup_l _ _ _ _ _ Hall Hi) as (ci & Hci & Hcred).
  apply credited_inv in Hcred as [_ Hk].
  exists (<[i := ci + (μ (call op fault (store c)).2 - μ (store c))]> cs).
  split.
  - apply Forall2_insert; [done|]. apply Hk.
  - rewrite (Zsum_insert _ _ _ _ Hci). lia.
Qed.

Lemma run_pool_credited {A} μ (sched : list (nat * bool)) (c : pool A) (cs : list Z) :
  Forall2 (credited μ) (threads c) cs →
  ∃ cs', Forall2 (credited μ) (threads (run_pool c sched)) cs' ∧
         μ (store (run_pool c sched)) - Zsum cs' = μ (store c) - Zsum cs.
Proof.
  revert c cs. induction sched as [|[i f] sched IH]; intros c cs Hall.
  - by exists cs.
  - rewrite run_pool_cons.
    destruct (step_pool_credited μ c i f cs Hall) as (cs1 & Hall1 & Hbal1).
    destruct (IH _ cs1 Hall1) as (cs2 & Hall2 & Hbal2).
    exists cs2. split; [done|]. lia.
Qed.

Lemma credited_nonneg {A} μ (ts : list (prog A)) (cs : list Z) :
  Forall2 (credited μ) ts cs → 0 ≤ Zsum cs.
Proof.
  induction 1 as [|p c ts cs Hp _ IH]; [done|].
  change (0 ≤ c + Zsum cs). apply credited_inv in Hp as [Hc _]. lia.
Qed.

(** A measure that every thread of a pool only credits never falls below
    where it started. *)
Lemma pool_never_below {A} μ (ts : list (prog A)) (s : db) (sched : list (nat * bool)) :
  Forall (λ p, credited μ p 0) ts →
  μ s ≤ μ (store (run_pool (spawn s ts) sched)).
Proof.
  intros Hall.
  destruct (run_pool_credited μ sched (spawn s ts) ((λ _, 0) <$> ts))
    as (cs & Hcs & Hbal).
  { cbn. apply Forall2_fmap_r, Forall_Forall2_diag.
    eapply Forall_impl; [exact Hall|]. done. }
  pose proof (credited_nonneg _ _ _ Hcs) as Hpos.
  assert (Hzero : Zsum ((λ _ : prog A, 0) <$> ts) = 0).
  { clear. induction ts as [|p ts IH]; [done|].
    change (0 + Zsum ((λ _ : prog A, 0) <$> ts) = 0). lia. }
  rewrite Hzero in Hbal. cbn [store spawn] in Hbal. lia.
Qed.

Lemma log_lead_insertOne (r : DownloadRecord) (s : db) :
  log_lead (perform (InfoInsertOne r) s).2 - log_lead s = 1.
Proof. unfold log_lead, count_of. cbn. rewrite length_app. cbn. lia. Qed.

Lemma log_lead_upsert a after (s : db) :
  log_lead (perform (TotalFindOneAndUpdate a after true) s).2 - log_lead s
  = if decide (a = counter) then -1 else 0.
Proof.
  unfold log_lead. pose proof (count_of_upsert counter a after s) as H.
  cbn in *. case_decide; lia.
Qed.

Lemma log_lead_update after upsert (s : db) :
  -1 ≤ log_lead (perform (TotalFindOneAndUpdate counter after upsert) s).2 - log_lead s ≤ 0.
Proof.
  unfold log_lead, count_of. cbn. unfold findOneAndUpdate.
  destruct (totalDownload s !! counter) as [c|] eqn:Hc; [|destruct upsert]; cbn;
    rewrite ?lookup_insert_eq, ?Hc; cbn; lia.
Qed.

Lemma call_false {X} (op : storage_op X) (s : db) : call op false s = perform op s.
Proof. done. Qed.

(** A handler never raises the global counter by more than the number of
    records it has appended, unless it is asked to track the reserved id. *)
Lemma app_credited_global (r : route) (req : Request) :
  (r = POST_totaldownloads_appId → params_appId req ≠ counter) →
  credited log_lead (app r req) 0.
Proof.
  intros Hres. destruct r; cbn [app].
  - apply credited_await; [done|]. intros [] s; apply credited_finished; cbn; done || lia.
  - apply credited_await; [done|]. intros [] s; apply credited_finished; cbn; done || lia.
  - specialize (Hres eq_refl). unfold post_totaldownloads_appId.
    apply credited_await; [done|]. intros [] s0.
    { apply credited_finished; cbn; done || lia. }
    rewrite !call_false, log_lead_insertOne. cbn.
    apply credited_await; [done|]. intros [] s1.
    { apply credited_finished; cbn; done || lia. }
    rewrite !call_false, log_lead_upsert, decide_False by done. cbn.
    apply credited_await; [done|]. intros [] s2.
    { apply credited_finished; cbn; done || lia. }
    rewrite !call_false. apply credited_finished.
    + cbn. by rewrite !findOneAndUpdate_upsert.
    + pose proof (log_lead_update false true s2). lia.
  - unfold post_totaldownloads.
    apply credited_await; [done|]. intros [] s0.
    { apply credited_finished; cbn; done || lia. }
    rewrite !call_false, log_lead_insertOne. cbn.
    apply credited_await; [done|]. intros [] s1.
    { apply credited_finished; cbn; done || lia. }
    rewrite !call_false. apply credited_finished.
    + cbn. unfold findOneAndUpdate. by destruct (totalDownload s1 !! counter).
    + pose proof (log_lead_update true false s1). lia.
  - by apply credited_finished.
Qed.

Lemma app_lead_insertOne a (r : DownloadRecord) (s : db) :
  app_lead a (perform (InfoInsertOne r) s).2 - app_lead a s
  = if decide (appId r = Some a) then 1 else 0.
Proof.
  unfold app_lead, records_of, count_of. cbn. rewrite filter_app, length_app.
  case_decide.
  - rewrite filter_cons_True by done. cbn. lia.
  - rewrite filter_cons_False by done. cbn. lia.
Qed.

Lemma app_lead_upsert a b after (s : db) :
  app_lead a (perform (TotalFindOneAndUpdate b after true) s).2 - app_lead a s
  = if decide (b = a) then -1 else 0.
Proof.
  unfold app_lead, records_of. pose proof (count_of_upsert a b after s) as H.
  cbn in *. case_decide; lia.
Qed.

Lemma app_lead_update_other a b after upsert (s : db) :
  b ≠ a →
  app_lead a (perform (TotalFindOneAndUpdate b after upsert) s).2 - app_lead a s = 0.
Proof.
  intros Hb. unfold app_lead, records_of, count_of. cbn. unfold findOneAndUpdate.
  destruct (totalDownload s !! b) as [c|] eqn:Hc; [|destruct upsert]; cbn;
    rewrite ?lookup_insert_ne by done; lia.
Qed.

(** A handler never raises the counter of an application by more than the
    number of records of that application it has appended. *)
Lemma app_credited_app (a : string) (r : route) (req : Request) :
  a ≠ counter → credited (app_lead a) (app r req) 0.
Proof.
  intros Ha. destruct r; cbn [app].
  - apply credited_await; [done|]. intros [] s; apply credited_finished; cbn; done || lia.
  - apply credited_await; [done|]. intros [] s; apply credited_finished; cbn; done || lia.
  - unfold post_totaldownloads_appId.
    apply credited_await; [done|]. intros [] s0.
    { apply credited_finished; cbn; done || lia. }
    rewrite !call_false, app_lead_insertOne. cbn.
    destruct (decide (params_appId req = a)) as [Hb|Hb].
    + rewrite decide_True by congruence.
      apply credited_await; [done|]. intros [] s1.
      { apply credited_finished; cbn; done || lia. }
      rewrite !call_false, app_lead_upsert, decide_True by done. cbn.
      apply credited_await; [done|]. intros [] s2.
      { apply credited_finished; cbn; done || lia. }
      rewrite !call_false. apply credited_finished.
      * cbn. by rewrite !findOneAndUpdate_upsert.
      * rewrite app_lead_update_other by done. lia.
    + rewrite decide_False by congruence.
      apply credited_await; [done|]. intros [] s1.
      { apply credited_finished; cbn; done || lia. }
      rewrite !call_false, app_lead_upsert, decide_False by done. cbn.
      apply credited_await; [done|]. intros [] s2.
      { apply credited_finished; cbn; done || lia. }
      rewrite !call_false. apply credited_finished.
      * cbn. by rewrite !findOneAndUpdate_upsert.
      * rewrite app_lead_update_other by done. lia.
  - unfold post_totaldownloads.
    apply credited_await; [done|]. intros [] s0.
    { apply credited_finished; cbn; done || lia. }
    rewrite !call_false, app_lead_insertOne, decide_False by done. cbn.
    apply credited_await; [done|]. intros [] s1.
    { apply credited_finished; cbn; done || lia. }
    rewrite !call_false. apply credited_finished.
    + cbn. unfold findOneAndUpdate. by destruct (totalDownload s1 !! counter).
    + rewrite app_lead_update_other by done. lia.
  - by apply credited_finished.
Qed.

(** X11.  The global counter never overcounts.  Serve any requests at once,
    none of which uses "counter" as its appId, with their calls interleaved
    in any order and any of them failing: at every moment the global counter
    has grown by no more than the event log has.  A counter that was not
    ahead of the log is never ahead of it. *)
Theorem global_never_overcounts (reqs : list (route * Request)) (s : db)
    (sched : list (nat * bool)) :
  reserved_unused reqs →
  let s' := store (run_pool (spawn s (handlers reqs)) sched) in
  count_of counter s' - count_of counter s ≤ log_size s' - log_size s ∧
  (count_of counter s ≤ log_size s → count_of counter s' ≤ log_size s').
Proof.
  intros Hres s'.
  assert (Hlead : log_lead s ≤ log_lead s').
  { apply pool_never_below. unfold handlers. apply Forall_fmap, Forall_forall.
    intros [r req] Hin. apply app_credited_global. intros Hr.
    exact (proj1 (Forall_forall _ _) Hres _ Hin Hr). }
  unfold log_lead, log_size in *. lia.
Qed.

Lemma global_never_overcounts_witness :
  let reqs := [(POST_totaldownloads_appId, request_for "hub-mobile");
               (POST_totaldownloads, request_for "")] in
  let sched := [(0, false); (1, false); (0, true); (1, false)]%nat in
  let s' := store (run_pool (spawn db_without_global (handlers reqs)) sched) in
  count_of counter s' ≤ log_size s'.
Proof.
  intros reqs sched s'.
  apply (global_never_overcounts reqs db_without_global sched).
  - repeat constructor; cbn; discriminate.
  - vm_compute. discriminate.
Defined.

(** X12.  No application counter overcounts either: for an id other than the
    reserved one, under any interleaving of any requests and any failures,
    the counter of the id has grown by no more than the number of records of
    the event log that carry the id. *)
Theorem app_never_overcounts (a : string) (reqs : list (route * Request)) (s : db)
    (sched : list (nat * bool)) :
  a ≠ counter →
  let s' := store (run_pool (spawn s (handlers reqs)) sched) in
  count_of a s' - count_of a s
  ≤ Z.of_nat (length (records_of a s')) - Z.of_nat (length (records_of a s)).
Proof.
  intros Ha s'.
  assert (Hlead : app_lead a s ≤ app_lead a s').
  { apply pool_never_below. unfold handlers. apply Forall_fmap, Forall_forall.
    intros [r req] _. by apply app_credited_app. }
  unfold app_lead in *. lia.
Qed.

Lemma app_never_overcounts_witness :
  let reqs := [(POST_totaldownloads_appId, request_for "hub-mobile");
               (POST_totaldownloads_appId, request_for "hub-library")] in
  let sched := [(0, false); (1, false); (0, true); (1, false)]%nat in
  let s' := store (run_pool (spawn empty_db (handlers reqs)) sched) in
  count_of "hub-mobile" s' - 0 ≤ Z.of_nat (length (records_of "hub-mobile" s')) - 0.
Proof.
  intros reqs sched s'.
  apply (app_never_overcounts "hub-mobile" reqs empty_db sched).
  vm_compute. discriminate.
Defined.

(** ** The log and the counters in step *)

Lemma adds_inv {A} μ G (p : prog A) n :
  adds μ G p n →
  match p with
  | Await op k =>
      ∀ s, G s → adds μ G (k (perform op s).1) (n - (μ (perform op s).2 - μ s))
  | _ => n = 0
  end.
Proof. intros H. destruct H as [p Hp|X op k n H]; [by destruct p|done]. Qed.

Lemma adds_done {A} μ G (p : prog A) n :
  finished p = true → n = 0 → adds μ G p n.
Proof. intros Hp ->. by constructor. Qed.

Lemma run_pool_adds {A} μ (G : db → Prop) (sched : list (nat * bool)) (c : pool A)
    (ns : list Z) :
  (∀ X (op : storage_op X) s, G s → G (perform op s).2) →
  faultless sched →
  Forall2 (adds μ G) (threads c) ns → G (store c) →
  ∃ ns', Forall2 (adds μ G) (threads (run_pool c sched)) ns' ∧
         μ (store (run_pool c sched)) + Zsum ns' = μ (store c) + Zsum ns.
Proof.
  intros Hstable. revert c ns.
  induction sched as [|[i f] sched IH]; intros c ns Hf Hall HG.
  - by exists ns.
  - apply Forall_cons in Hf as [Hi Hf]. cbn in Hi. subst f. rewrite run_pool_cons.
    destruct (threads c !! i) as [[a|e|X op k]|] eqn:Hti.
    1,2,4: idle Hti; by apply IH.
    rewrite (step_pool_await _ _ _ _ _ Hti), call_false.
    destruct (Forall2_lookup_l _ _ _ _ _ Hall Hti) as (n & Hn & Hadds).
    apply adds_inv in Hadds.
    destruct (IH {| store := (perform op (store c)).2;
                    threads := <[i := k (perform op (store c)).1]> (threads c);
                    history := history c ++ [(i, Called op (is_inl (perform op (store c)).1))] |}
                 (<[i := n - (μ (perform op (store c)).2 - μ (store c))]> ns) Hf)
      as (ns' & Hall' & Hbal).
    { cbn. apply Forall2_insert; [done|]. by apply Hadds. }
    { cbn. by apply Hstable. }
    exists ns'. split; [done|]. cbn [store] in Hbal.
    rewrite (Zsum_insert _ _ _ _ Hn) in Hbal. lia.
Qed.

Lemma adds_all_finished {A} μ G (ts : list (prog A)) (ns : list Z) :
  Forall2 (adds μ G) ts ns → Forall (λ p, finished p = true) ts → Zsum ns = 0.
Proof.
  induction 1 as [|p n ts ns Hp _ IH]; intros Hfin; [done|].
  apply Forall_cons in Hfin as [Hfp Hfin].
  change (n + Zsum ns = 0). rewrite (IH Hfin).
  apply adds_inv in Hp. destruct p; cbn in Hp; [lia|lia|done].
Qed.

Lemma log_size_insertOne (r : DownloadRecord) (s : db) :
  log_size (perform (InfoInsertOne r) s).2 - log_size s = 1.
Proof. unfold log_size. cbn. rewrite length_app. cbn. lia. Qed.

(** Without faults a track request appends one record, and any other
    request none. *)
Lemma app_adds_log (r : route) (req : Request) :
  adds log_size (λ _, True) (app r req) (if is_track r then 1 else 0).
Proof.
  destruct r; cbn [app is_track].
  - apply adds_await. intros s _. apply adds_done; [done|]. cbn. lia.
  - apply adds_await. intros s _. apply adds_done; [done|]. cbn. lia.
  - unfold post_totaldownloads_appId.
    apply adds_await. intros s0 _. rewrite log_size_insertOne. cbn.
    apply adds_await. intros s1 _. cbn -[log_size].
    apply adds_await. intros s2 _. apply adds_done.
    + cbn. by rewrite !findOneAndUpdate_upsert.
    + unfold log_size. cbn. lia.
  - unfold post_totaldownloads.
    apply adds_await. intros s0 _. rewrite log_size_insertOne. cbn.
    apply adds_await. intros s1 _. apply adds_done.
    + cbn. unfold findOneAndUpdate. by destruct (totalDownload s1 !! counter).
    + unfold log_size. cbn. lia.
  - by apply adds_done.
Qed.

Lemma Zsum_tracks (reqs : list (route * Request)) :
  Zsum ((λ rq, if is_track rq.1 then 1 else 0) <$> reqs) = total_tracks reqs.
Proof.
  unfold total_tracks. induction reqs as [|[r req] reqs IH]; [done|].
  change (Zsum ((λ rq : route * Request, if is_track rq.1 then 1 else 0) <$> (r, req) :: reqs))
    with ((if is_track r then 1 else 0)
          + Zsum ((λ rq : route * Request, if is_track rq.1 then 1 else 0) <$> reqs)).
  rewrite IH. destruct (is_track r) eqn:Hr.
  - rewrite filter_cons_True by done. cbn [length]. lia.
  - rewrite filter_cons_False by (cbn; congruence). lia.
Qed.

(** X13.  Every track request appends exactly one download record: when any
    requests are served at once, their calls interleaved in any order and
    none failing, the event log has grown, once all the handlers are done, by
    the number of POST requests among them. *)
Theorem log_grows_with_tracks (reqs : list (route * Request)) (s : db)
    (sched : list (nat * bool)) :
  faultless sched →
  let c := run_pool (spawn s (handlers reqs)) sched in
  all_finished c →
  log_size (store c) = log_size s + total_tracks reqs.
Proof.
  intros Hsched c Hfin.
  destruct (run_pool_adds log_size (λ _, True) sched (spawn s (handlers reqs))
              ((λ rq, if is_track rq.1 then 1 else 0) <$> reqs))
    as (ns & Hns & Hbal); [done|done| |done|].
  { unfold handlers. cbn. apply Forall2_fmap, Forall_Forall2_diag, Forall_forall.
    intros [r req] _. apply app_adds_log. }
  fold c in Hns, Hbal.
  rewrite (adds_all_finished _ _ _ _ Hns Hfin), Zsum_tracks in Hbal.
  cbn [store spawn] in Hbal. lia.
Qed.

Lemma log_grows_with_tracks_witness :
  let reqs := [(POST_totaldownloads_appId, request_for "hub-mobile");
               (GET_totaldownloads, request_for "");
               (POST_totaldownloads, request_for "")] in
  let sched := [(2, false); (0, false); (1, false); (0, false); (2, false);
                (0, false)]%nat in
  log_size (store (run_pool (spawn db_global_5 (handlers reqs)) sched)) = 2.
Proof.
  intros reqs sched.
  apply (log_grows_with_tracks reqs db_global_5 sched).
  - repeat constructor.
  - vm_compute. repeat constructor.
Defined.

(** Without faults a handler leaves the lead of the log over the global
    counter as it was: one record, one increment. *)
Lemma app_adds_lead (G : db → Prop) (r : route) (req : Request) :
  (r = POST_totaldownloads_appId → params_appId req ≠ counter) →
  (r = POST_totaldownloads → ∀ s, G s → present counter s) →
  adds log_lead G (app r req) 0.
Proof.
  intros Hres HG. destruct r; cbn [app].
  - apply adds_await. intros s _. apply adds_done; [done|]. cbn. lia.
  - apply adds_await. intros s _. apply adds_done; [done|]. cbn. lia.
  - specialize (Hres eq_refl). unfold post_totaldownloads_appId.
    apply adds_await. intros s0 _. rewrite log_lead_insertOne. cbn.
    apply adds_await. intros s1 _.
    rewrite log_lead_upsert, decide_False by done. cbn.
    apply adds_await. intros s2 _. apply adds_done.
    + cbn. by rewrite !findOneAndUpdate_upsert.
    + rewrite log_lead_upsert, decide_True by done. lia.
  - unfold post_totaldownloads.
    apply adds_await. intros s0 HG0. rewrite log_lead_insertOne. cbn.
    apply adds_await. intros s1 HG1.
    destruct (HG eq_refl s1 HG1) as [c Hc]. apply adds_done.
    + cbn. by rewrite (findOneAndUpdate_present _ _ _ _ _ Hc).
    + unfold log_lead, count_of. cbn.
      rewrite (findOneAndUpdate_present _ _ _ _ _ Hc). cbn.
      rewrite lookup_insert_eq, Hc. cbn. lia.
  - by apply adds_done.
Qed.

(** X14.  The global counter and the event log move in step.  When the
    requests served at once do not use "counter" as an appId, no call fails,
    and the global counter exists (or no request is a POST /totaldownloads),
    then once all the handlers are done the global counter has grown by
    exactly as much as the event log, whatever the interleaving: a counter
    equal to the size of the log, as [initializeCounter] seeds it, is equal
    to it again. *)
Theorem counter_and_log_in_step (reqs : list (route * Request)) (s : db)
    (sched : list (nat * bool)) :
  reserved_unused reqs →
  present counter s ∨ (∀ req, (POST_totaldownloads, req) ∉ reqs) →
  faultless sched →
  let c := run_pool (spawn s (handlers reqs)) sched in
  all_finished c →
  count_of counter (store c) - count_of counter s = log_size (store c) - log_size s ∧
  (count_of counter s = log_size s → count_of counter (store c) = log_size (store c)).
Proof.
  intros Hres Hpre Hsched c Hfin.
  set (G := λ s' : db, present counter s → present counter s').
  destruct (run_pool_adds log_lead G sched (spawn s (handlers reqs))
              ((λ _, 0) <$> reqs))
    as (ns & Hns & Hbal).
  - intros X op s' HG Hs. by apply perform_present, HG.
  - done.
  - unfold handlers. cbn. apply Forall2_fmap, Forall_Forall2_diag, Forall_forall.
    intros [r req] Hin. apply app_adds_lead.
    + intros Hr. exact (proj1 (Forall_forall _ _) Hres _ Hin Hr).
    + intros Hr s' HG. apply HG. destruct Hpre as [Hp|Hno]; [done|].
      cbn in Hr. subst r. by destruct (Hno req).
  - by intros ?.
  - fold c in Hns, Hbal.
    rewrite (adds_all_finished _ _ _ _ Hns Hfin) in Hbal.
    assert (Hzero : Zsum ((λ _ : route * Request, 0) <$> reqs) = 0).
    { clear. induction reqs as [|rq reqs IH]; [done|].
      change (0 + Zsum ((λ _ : route * Request, 0) <$> reqs) = 0). lia. }
    rewrite Hzero in Hbal. cbn [store spawn] in Hbal.
    unfold log_lead, log_size in *. lia.
Qed.

Lemma counter_and_log_in_step_witness :
  let reqs := [(POST_totaldownloads_appId, request_for "hub-mobile");
               (POST_totaldownloads, request_for "")] in
  let sched := [(1, false); (0, false); (0, false); (1, false); (0, false)]%nat in
  let s := final (exec initializeCounter [] db_without_global) in
  let c := run_pool (spawn s (handlers reqs)) sched in
  count_of counter (store c) = log_size (store c).
Proof.
  intros reqs sched s c.
  apply (counter_and_log_in_step reqs s sched).
  - repeat constructor; cbn; discriminate.
  - left. vm_compute. eauto.
  - repeat constructor.
  - vm_compute. repeat constructor.
  - vm_compute. reflexivity.
Defined.

(** ** Sequencing *)

Lemma drop_S_tl {A} (n : nat) (l : list A) : drop (S n) l = drop n (tl l).
Proof. destruct l; cbn; [by destruct n|done]. Qed.

(** Running [p] and then [f]: the calls of [f] meet the faults that [p] has
    left. *)
Lemma exec_bind {A B} (p : prog A) (f : A → prog B) (faults : list bool) (s : db) :
  exec (bind p f) faults s =
    let o := exec p faults s in
    match result o with
    | inl a => then_outcome o (exec (f a) (drop (length (trace o)) faults) (final o))
    | inr e => {| result := inr e; final := final o; trace := trace o |}
    end.
Proof.
  revert faults s. induction p as [a|e|X op k IH]; intros faults s.
  - cbn [bind exec result final trace length]. unfold then_outcome.
    rewrite drop_0. by destruct (exec (f a) faults s).
  - done.
  - cbn [bind exec]. rewrite IH. cbn [result final trace length].
    rewrite drop_S_tl.
    by destruct (result (exec (k (call op (hd false faults) s).1) (tl faults)
                              (call op (hd false faults) s).2)).
Qed.

(** A try block whose value and whose error are both turned into values. *)
Lemma exec_catch_value {A B} (p : prog A) (g : A → B) (h : error → B)
    (faults : list bool) (s : db) :
  exec (try_catch (bind p (λ a, Ret (g a))) (λ e, Ret (h e))) faults s =
    let o := exec p faults s in
    {| result := inl (match result o with inl a => g a | inr e => h e end);
       final := final o;
       trace := trace o |}.
Proof.
  revert faults s. induction p as [a|e|X op k IH]; intros faults s; [done..|].
  cbn [bind try_catch exec]. rewrite IH. done.
Qed.

Lemma exec_try_catch_ret {A} (p : prog A) (r : A) (faults : list bool) (s : db) :
  exec (try_catch p (λ _, Ret r)) faults s =
    let o := exec p faults s in
    {| result := inl (match result o with inl a => a | inr _ => r end);
       final := final o;
       trace := trace o |}.
Proof.
  revert faults s. induction p as [a|e|X op k IH]; intros faults s; [done..|].
  cbn [try_catch exec]. rewrite IH. done.
Qed.

(** ** The serverless variant *)

(** [connectToDatabase] run alone: it makes no call when the module is
    connected; otherwise it connects and seeds, or fails and leaves the
    database as it was. *)
Lemma connectToDatabase_outcome (faults : list bool) (s : db) :
  exec (connectToDatabase true) faults s
  = {| result := inl true; final := s; trace := [] |} ∧
  let o := exec (connectToDatabase false) faults s in
  (result o = inl true ∧ storage_failed o = false ∧ present counter (final o) ∧
   final o = final (exec initializeCounter [] s)) ∨
  (result o = inr StorageUnavailable ∧ storage_failed o = true ∧ final o = s).
Proof.
  split; [done|].
  unfold connectToDatabase, initializeCounter, storage_failed, present.
  destruct (totalDownload s !! counter) as [c|] eqn:Hc;
    destruct faults as [|[] [|[] [|[] [|[] faults]]]]; cbn; rewrite ?Hc; cbn;
    rewrite ?Hc; cbn; rewrite ?lookup_insert_eq; auto 8.
Qed.

(** The shape all the serverless handlers but GET / have, and what it does:
    [connectToDatabase], and if it returns, the handler of the other
    variant. *)
Lemma guarded_connect (body : prog Response) (r500 : Response) (isConnected : bool)
    (faults : list bool) (s : db) :
  let oc := exec (connectToDatabase isConnected) faults s in
  exec (s_try_catch (do* _ := s_connect in s_lift body) (λ _, s_ret r500) isConnected)
       faults s =
    match result oc with
    | inl connected =>
        then_outcome oc
          (map_outcome (λ resp, (inl resp, connected))
             (exec (try_catch body (λ _, Ret r500))
                   (drop (length (trace oc)) faults) (final oc)))
    | inr e => {| result := inl (inl r500, isConnected);
                  final := final oc;
                  trace := trace oc |}
    end.
Proof.
  intros oc. unfold s_try_catch, s_bind, s_connect, s_lift, s_ret.
  rewrite exec_bind, exec_bind, exec_catch_value. fold oc.
  cbn [result final trace]. destruct (result oc) as [connected|e]; cbn.
  - rewrite exec_catch_value, exec_try_catch_ret. cbn.
    unfold then_outcome, map_outcome. cbn.
    destruct (result (exec body (drop (length (trace oc)) faults) (final oc)));
      cbn; by rewrite ?app_nil_r.
  - unfold then_outcome. cbn. by rewrite !app_nil_r.
Qed.

Lemma serverless_shape (r : route) (req : Request) :
  r ≠ GET_root →
  ∃ body,
    serverless_app r req
    = s_try_catch (do* _ := s_connect in s_lift body)
                  (λ _, s_ret (res_status_json 500 (JError (failure_message r)))) ∧
    app r req
    = try_catch body (λ _, Ret (res_status_json 500 (JError (failure_message r)))).
Proof. destruct r; [eexists; split; reflexivity..|done]. Qed.

(** X15.  On a module that is connected, a serverless handler is the handler
    of the other variant: [connectToDatabase] makes no call, and the request
    meets the same calls, leaves the same database and gets the same
    response, whatever calls fail; [isConnected] stays true. *)
Theorem warm_serverless_is_server (r : route) (req : Request) (faults : list bool)
    (s : db) :
  let o := exec (app r req) faults s in
  let o' := exec (serverless_app r req true) faults s in
  final o' = final o ∧ trace o' = trace o ∧
  ∃ resp, result o = inl resp ∧ sent o' = Some (resp, true).
Proof.
  intros o o'. subst o o'.
  destruct (decide (r = GET_root)) as [->|Hr].
  { cbn. eauto. }
  destruct (serverless_shape r req Hr) as (body & -> & ->).
  rewrite guarded_connect. cbn [connectToDatabase exec result final trace length].
  rewrite drop_0, exec_try_catch_ret. unfold sent. cbn. eauto.
Qed.

(** X16.  On a module that is not connected, a serverless handler other than
    GET / first runs [connectToDatabase].  If that throws, the response is
    the 500 of the route, the database is as it was and [isConnected] stays
    false, so that the next request connects again.  If it returns, the
    global counter exists, [isConnected] is true, and the request goes on as
    the handler of the other variant does from there, with the faults that
    are left. *)
Theorem cold_serverless_connects_first (r : route) (req : Request)
    (faults : list bool) (s : db) :
  r ≠ GET_root →
  let oc := exec (connectToDatabase false) faults s in
  let o' := exec (serverless_app r req false) faults s in
  (∀ e, result oc = inr e →
     final o' = s ∧ trace o' = trace oc ∧
     sent o' = Some ({| status := 500; body := JError (failure_message r) |}, false)) ∧
  (∀ connected, result oc = inl connected →
     let o := exec (app r req) (drop (length (trace oc)) faults) (final oc) in
     present counter (final oc) ∧
     final o' = final o ∧ trace o' = trace oc ++ trace o ∧
     ∃ resp, result o = inl resp ∧ sent o' = Some (resp, true)).
Proof.
  intros Hr oc o'. subst o'.
  destruct (serverless_shape r req Hr) as (body & -> & ->).
  rewrite guarded_connect. fold oc.
  destruct (connectToDatabase_outcome faults s) as [_ Hoc]. fold oc in Hoc.
  destruct Hoc as [(Hres & _ & Hpres & _)|(Hres & _ & Hfinal)]; rewrite Hres.
  - split; [discriminate|]. intros connected [= <-]. split; [done|].
    rewrite exec_try_catch_ret. unfold sent. cbn. eauto.
  - split; [|discriminate]. intros e _. unfold sent. cbn. auto.
Qed.

Lemma cold_serverless_connects_first_witness :
  let o' := exec (serverless_app POST_totaldownloads_appId (request_for "hub-mobile") false)
                 [] db_without_global in
  sent o' = Some ({| status := 200;
                     body := JTracked true 4 "Download tracked successfully" |}, true) ∧
  count_of counter (final o') = 2.
Proof.
  intros o'.
  destruct (cold_serverless_connects_first POST_totaldownloads_appId
              (request_for "hub-mobile") [] db_without_global) as [_ Hcold];
    [discriminate|].
  destruct (Hcold true) as (_ & Hfinal & _ & resp & Hresp & Hsent).
  { vm_compute. reflexivity. }
  fold o' in Hfinal, Hsent. rewrite Hfinal, Hsent. split.
  - assert (resp = {| status := 200;
                      body := JTracked true 4 "Download tracked successfully" |}) as ->;
      [|done].
    vm_compute in Hresp. congruence.
  - vm_compute. reflexivity.
Defined.

(** X17.  [connectToDatabase] connects once.  Called while [isConnected] is
    true it makes no call at all.  Called while it is false it either makes
    every call, leaves the global counter in place as a fault-free
    [initializeCounter] does, and returns true for [isConnected]; or one of
    its calls is rejected, and it throws with the database untouched. *)
Theorem connectToDatabase_connects_once (faults : list bool) (s : db) :
  exec (connectToDatabase true) faults s
  = {| result := inl true; final := s; trace := [] |} ∧
  let o := exec (connectToDatabase false) faults s in
  (result o = inl true ∧ storage_failed o = false ∧ present counter (final o) ∧
   final o = final (exec initializeCounter [] s)) ∨
  (result o = inr StorageUnavailable ∧ storage_failed o = true ∧ final o = s).
Proof. apply connectToDatabase_outcome. Qed.


Lemma racing_connectToDatabase_witness :
  let sched := [(0, false); (1, false); (1, false); (0, false); (0, false);
                (1, false); (0, false); (1, false)]%nat in
  let c := run_pool (spawn db_without_global (replicate 2 (connectToDatabase false))) sched in
  totalDownload (store c) = <[counter := 1]> (totalDownload db_without_global) ∧
  creations (history c) = 1%nat.
Proof.
  intros sched c.
  destruct (racing_connectToDatabase 2 db_without_global sched) as [_ Hrace].
  apply Hrace.
  - vm_compute. reflexivity.
  - subst sched. repeat constructor.
  - vm_compute. repeat constructor.
  - discriminate.
Defined.

Lemma fair_schedule_finishes_witness :
  all_finished
    (run_pool
       (spawn empty_db
          (handlers [(POST_totaldownloads_appId, request_for "hub-mobile");
                     (GET_totaldownloads, request_for "")]))
       [(0, true); (1, false); (0, false); (1, true); (1, false); (0, false)]%nat).
Proof.
  apply fair_schedule_finishes. intros [|[|i]] Hi; cbn in Hi; try lia.
  - vm_compute. lia.
  - vm_compute. lia.
Defined.

(** ** Seeding and tracking do not commute *)

(** X19.  On a database without the global counter, [initializeCounter] and
    a track request give different global counts in the two orders.  Seeding
    first, the counter holds the size of the event log after the request.
    Tracking first, the upsert of POST /totaldownloads/:appId creates the
    global counter at 1, [initializeCounter] then finds it and seeds nothing,
    and the records that were in the log are never counted. *)
Theorem seeding_must_come_first (req : Request) (s : db) :
  totalDownload s !! counter = None →
  params_appId req ≠ counter →
  let track := (Handle POST_totaldownloads_appId req, @nil bool) in
  let seed := (Startup, @nil bool) in
  count_of counter (after [seed; track] s) = log_size s + 1 ∧
  log_size (after [seed; track] s) = log_size s + 1 ∧
  count_of counter (after [track; seed] s) = 1 ∧
  log_size (after [track; seed] s) = log_size s + 1.
Proof.
  intros Hc Ha. unfold after, log_size, count_of. cbn.
  rewrite !Hc. cbn. rewrite !findOneAndUpdate_upsert. cbn.
  rewrite !(lookup_insert_ne _ (params_appId req) counter) by done.
  rewrite !lookup_insert_eq, ?Hc. cbn.
  rewrite !lookup_insert_eq. cbn.
  rewrite !length_app. cbn. repeat split; lia.
Qed.

Lemma seeding_must_come_first_witness :
  count_of counter
    (after [(Startup, []);
            (Handle POST_totaldownloads_appId (request_for "hub-mobile"), [])]
           db_without_global) = 2 ∧
  count_of counter
    (after [(Handle POST_totaldownloads_appId (request_for "hub-mobile"), []);
            (Startup, [])]
           db_without_global) = 1.
Proof.
  destruct (seeding_must_come_first (request_for "hub-mobile") db_without_global)
    as (Hfirst & _ & Hlast & _).
  - vm_compute. reflexivity.
  - vm_compute. discriminate.
  - split; [exact Hfirst|exact Hlast].
Defined.

(** ** Which increments are upserts *)

(** C3 as stated fails: on a database without the global counter document,
    POST /totaldownloads answers 500 and creates nothing. *)
Lemma post_global_does_not_upsert :
  ¬ global_route_upserts db_without_global (request_for "").
Proof.
  intros H. destruct H as [Hresp _]; [vm_compute; reflexivity|].
  vm_compute in Hresp. discriminate Hresp.
Qed.

(** C3, as the code has it.  The two increments of POST
    /totaldownloads/:appId are upserts: the handler's calls are the insertion
    of the record and two [findOneAndUpdate] with [upsert: true], such a call
    creates a missing counter with count 1 and, asked for the document after
    the update, returns it; so a request for an id without counter answers 1,
    and a missing counter, the global one included, is created at 1.  The
    increment of POST /totaldownloads is not an upsert.  It increments the
    global counter that exists and answers its count plus one, and the
    counter does exist whenever the route is served: [run()] registers the
    route only with the global counter in place, and nothing removes it
    afterwards.  Made on a database without the global counter document, the
    request appends its record, creates nothing and answers 500. *)
Theorem increments_upsert_except_global_route :
  (∀ req s,
     let o := exec (post_totaldownloads_appId req) [] s in
     let a := params_appId req in
     trace o = [Called (InfoInsertOne (download_record (Some a) req)) true;
                Called (TotalFindOneAndUpdate a true true) true;
                Called (TotalFindOneAndUpdate counter false true) true] ∧
     (totalDownload s !! a = None →
      response_of o = Some {| status := 200;
                              body := JTracked true 1 "Download tracked successfully" |}) ∧
     (a ≠ counter → totalDownload s !! a = None →
      totalDownload (final o) !! a = Some 1) ∧
     (a ≠ counter → totalDownload s !! counter = None →
      totalDownload (final o) !! counter = Some 1)) ∧
  (∀ id after s,
     totalDownload s !! id = None →
     perform (TotalFindOneAndUpdate id after true) s
     = (inl (if after then Some (doc_of id 1) else None),
        {| downloadInfo := downloadInfo s;
           totalDownload := <[id := 1]> (totalDownload s) |})) ∧
  (∀ req s c,
     totalDownload s !! counter = Some c →
     let o := exec (post_totaldownloads req) [] s in
     response_of o = Some {| status := 200;
                             body := JTracked true (c + 1)
                                              "Download tracked successfully" |} ∧
     totalDownload (final o) !! counter = Some (c + 1)) ∧
  (∀ faults s routes acts,
     result (exec run faults s) = inl routes →
     POST_totaldownloads ∈ routes →
     present counter (after acts (final (exec run faults s)))) ∧
  (∀ req s,
     totalDownload s !! counter = None →
     let o := exec (post_totaldownloads req) [] s in
     response_of o = Some {| status := 500;
                             body := JError "Failed to track download" |} ∧
     totalDownload (final o) = totalDownload s ∧
     downloadInfo (final o) = downloadInfo s ++ [download_record None req]).
Proof.
  split; [|split; [|split; [|split]]].
  - intros req s o a.
    destruct (post_app_upserts req s) as (Hresp & Happ & Hglobal). fold o a in Hresp, Happ, Hglobal.
    split; [|split; [|split]]; [|intros Ha|done|done].
    + subst o. unfold post_totaldownloads_appId. cbn.
      by rewrite !findOneAndUpdate_upsert.
    + unfold response_of. by rewrite (Hresp Ha).
  - intros id after s Hid. cbn. rewrite findOneAndUpdate_upsert, Hid. cbn.
    by destruct after.
  - intros req s c Hc o. split; [by apply post_global_present|].
    subst o. unfold post_totaldownloads. cbn.
    rewrite (findOneAndUpdate_present _ _ _ _ _ Hc). cbn.
    by rewrite lookup_insert_eq.
  - intros faults s routes acts Hroutes Hin.
    destruct (run_outcome faults s) as [(_ & _ & [c Hc] & _)|(Hr & _)].
    + destruct (after_counter_mono acts _ counter c Hc) as (c' & Hc' & _).
      by exists c'.
    + rewrite Hr in Hroutes. injection Hroutes as <-. by apply elem_of_nil in Hin.
  - intros req s Hc o. destruct (post_global_absent req s Hc) as [Hresp Hfinal].
    fold o in Hresp, Hfinal. unfold response_of. rewrite Hresp, Hfinal. done.
Qed.

Lemma increments_upsert_except_global_route_witness :
  response_of (exec (post_totaldownloads_appId (request_for "hub-library")) []
                    db_without_global)
  = Some {| status := 200; body := JTracked true 1 "Download tracked successfully" |} ∧
  totalDownload (final (exec (post_totaldownloads_appId (request_for "hub-library")) []
                             db_without_global)) !! counter = Some 1 ∧
  response_of (exec (post_totaldownloads (request_for "")) [] db_global_5)
  = Some {| status := 200; body := JTracked true 6 "Download tracked successfully" |} ∧
  present counter
    (after [(Handle POST_totaldownloads_appId (request_for "hub-mobile"), [false; true])]
           (final (exec run [] db_without_global))) ∧
  response_of (exec (post_totaldownloads (request_for "")) [] db_without_global)
  = Some {| status := 500; body := JError "Failed to track download" |}.
Proof.
  destruct increments_upsert_except_global_route
    as (Happ & _ & Hpresent & Hserved & Habsent).
  destruct (Happ (request_for "hub-library") db_without_global)
    as (_ & Hresp & _ & Hglobal).
  split; [apply Hresp; vm_compute; reflexivity|].
  split; [apply Hglobal; [vm_compute; discriminate|vm_compute; reflexivity]|].
  split; [apply (Hpresent (request_for "") db_global_5 5); vm_compute; reflexivity|].
  split.
  - apply (Hserved [] db_without_global all_routes).
    + vm_compute. reflexivity.
    + vm_compute. repeat constructor.
  - apply (Habsent (request_for "") db_without_global). vm_compute. reflexivity.
Defined.
